(** * acids_transforms: composition algebra and spectral representations

    A shallow embedding of [acids_transforms/transforms/base.py] and
    [acids_transforms/transforms/spectral_repr.py].

    Conventions of the embedding.
    - Floating point numbers are read as real numbers ([R]); a complex
      number is a pair (real part, imaginary part).  [torch.log] and
      [torch.exp] of [Magnitude] are parameters ([TorchMath]).
    - A torch tensor is a nested list ([tensor]): [Rows] lists the entries
      along dimension 0.  Binary operations require equal shapes.  A
      tensor with a dimension of size 0 before its last dimension, such
      as one of shape (0, 1), has no representation.
    - A Python exception is a value of [exn]; a method that may raise
      returns a [result].
    - A Python [list] and an [nn.ModuleList] are told apart where [+]
      treats them differently ([Sequence]).
    - The helpers of [utils/misc.py] ([unwrap], [fdiff_*], [fint_*]) and the
      [Normalize] module of [norm.py] are outside these two files; they are
      taken as parameters ([Misc], [Normalizer]). *)

From Stdlib Require Import Reals Lra List Bool String Arith Lia ZArith.
Import ListNotations.
Open Scope R_scope.

Set Implicit Arguments.
Set Warnings "-register-all".

(* ================================================================== *)
(** * Exceptions and results *)

Inductive exn : Type :=
| NotInvertibleError   (* declared in base.py *)
| NotImplementedError
| TypeError
| AttributeError
| RuntimeError
| IndexError
| ZeroDivisionError.

Inductive result (A : Type) : Type :=
| Ok (a : A)
| Raise (e : exn).

Arguments Ok {A} a.
Arguments Raise {A} e.

Definition bind {A B : Type} (c : result A) (k : A -> result B) : result B :=
  match c with
  | Ok a => k a
  | Raise e => Raise e
  end.

Notation "x <- c ;; k" := (bind c (fun x => k))
  (at level 61, c at next level, right associativity).

Fixpoint mapM {A B : Type} (f : A -> result B) (l : list A) : result (list B) :=
  match l with
  | [] => Ok []
  | a :: r => b <- f a ;; bs <- mapM f r ;; Ok (b :: bs)
  end.

Fixpoint zipM {A B C : Type} (f : A -> B -> result C) (la : list A) (lb : list B)
  : result (list C) :=
  match la, lb with
  | [], [] => Ok []
  | a :: ra, b :: rb => c <- f a b ;; cs <- zipM f ra rb ;; Ok (c :: cs)
  | _, _ => Raise RuntimeError
  end.

(* ================================================================== *)
(** * Tensors *)

Inductive tensor (A : Type) : Type :=
| Scalar (a : A)
| Rows (rows : list (tensor A)).

Arguments Scalar {A} a.
Arguments Rows {A} rows.

Section TensorInduction.
Variable A : Type.
Variable P : tensor A -> Prop.
Hypothesis P_scalar : forall a, P (Scalar a).
Hypothesis P_rows : forall rows, Forall P rows -> P (Rows rows).

Fixpoint tensor_nested_ind (t : tensor A) : P t :=
  match t with
  | Scalar a => P_scalar a
  | Rows rows =>
      P_rows
        ((fix all (l : list (tensor A)) : Forall P l :=
            match l with
            | [] => Forall_nil P
            | x :: r => Forall_cons x (tensor_nested_ind x) (all r)
            end) rows)
  end.

End TensorInduction.

(** Elementwise application, as in [x.real], [x.abs()], [torch.exp(x)]. *)
Fixpoint tmap {A B : Type} (f : A -> B) (t : tensor A) : tensor B :=
  match t with
  | Scalar a => Scalar (f a)
  | Rows rows => Rows (map (tmap f) rows)
  end.

(** [x.ndim]. *)
Fixpoint ndim {A : Type} (t : tensor A) : nat :=
  match t with
  | Scalar _ => 0
  | Rows [] => 1
  | Rows (h :: _) => S (ndim h)
  end.

(** Equality of shapes. *)
Fixpoint same_shape {A B : Type} (s : tensor A) (t : tensor B) : bool :=
  match s, t with
  | Scalar _, Scalar _ => true
  | Rows ls, Rows lt =>
      (fix rows (ls : list (tensor A)) (lt : list (tensor B)) : bool :=
         match ls, lt with
         | [], [] => true
         | a :: ra, b :: rb => same_shape a b && rows ra rb
         | _, _ => false
         end) ls lt
  | _, _ => false
  end.

(** Every entry satisfies [p]. *)
Fixpoint tall {A : Type} (p : A -> Prop) (t : tensor A) : Prop :=
  match t with
  | Scalar a => p a
  | Rows rows =>
      (fix rows_all (l : list (tensor A)) : Prop :=
         match l with
         | [] => True
         | x :: r => tall p x /\ rows_all r
         end) rows
  end.

(** Elementwise binary operation on tensors of one shape. *)
Fixpoint tmap2 {A B C : Type} (f : A -> B -> C) (s : tensor A) (t : tensor B)
  : result (tensor C) :=
  match s, t with
  | Scalar a, Scalar b => Ok (Scalar (f a b))
  | Rows ls, Rows lt =>
      rs <- (fix rows (ls : list (tensor A)) (lt : list (tensor B))
               : result (list (tensor C)) :=
               match ls, lt with
               | [], [] => Ok []
               | a :: ra, b :: rb =>
                   c <- tmap2 f a b ;; cs <- rows ra rb ;; Ok (c :: cs)
               | _, _ => Raise RuntimeError
               end) ls lt ;;
      Ok (Rows rs)
  | _, _ => Raise RuntimeError
  end.

(** A dimension given as a Python integer, resolved against [n] dimensions:
    [-n .. n-1] are accepted. *)
Definition resolve_dim (d : Z) (n : nat) : result nat :=
  if ((0 <=? d) && (d <? Z.of_nat n))%Z then Ok (Z.to_nat d)
  else if ((d <? 0) && (- Z.of_nat n <=? d))%Z then Ok (Z.to_nat (d + Z.of_nat n))
  else Raise IndexError.

(** [torch.stack([a, b], dim=d)] for a resolved [d]. *)
Fixpoint stack_at {A : Type} (d : nat) (a b : tensor A) : result (tensor A) :=
  match d with
  | O => if same_shape a b then Ok (Rows [a; b]) else Raise RuntimeError
  | S d' =>
      match a, b with
      | Rows la, Rows lb => rs <- zipM (stack_at d') la lb ;; Ok (Rows rs)
      | _, _ => Raise IndexError
      end
  end.

Definition torch_stack {A : Type} (a b : tensor A) (dim : Z) : result (tensor A) :=
  d <- resolve_dim dim (S (ndim a)) ;; stack_at d a b.

(** [x.index_select(d, torch.tensor(i)).squeeze(d)] for a resolved [d]. *)
Fixpoint select_at {A : Type} (d i : nat) (x : tensor A) : result (tensor A) :=
  match d, x with
  | _, Scalar _ => Raise IndexError
  | O, Rows rows =>
      match nth_error rows i with
      | Some r => Ok r
      | None => Raise IndexError
      end
  | S d', Rows rows => rs <- mapM (select_at d' i) rows ;; Ok (Rows rs)
  end.

Definition index_select_squeeze {A : Type} (x : tensor A) (dim : Z) (i : nat)
  : result (tensor A) :=
  d <- resolve_dim dim (ndim x) ;; select_at d i x.

(** In-place update of a slice along dimension 0: [x[1:] op= c],
    [x[:-1] op= c] and [x[1:-1] op= c], with [f] the update of one row. *)
Fixpoint upd_init {A : Type} (f : A -> A) (l : list A) : list A :=
  match l with
  | [] => []
  | [x] => [x]
  | x :: r => f x :: upd_init f r
  end.

Definition upd_tail {A : Type} (f : A -> A) (l : list A) : list A :=
  match l with
  | [] => []
  | h :: r => h :: map f r
  end.

Definition upd_interior {A : Type} (f : A -> A) (l : list A) : list A :=
  match l with
  | [] => []
  | h :: r => h :: upd_init f r
  end.

Definition slice_update {A : Type} (upd : list (tensor A) -> list (tensor A))
  (x : tensor A) : result (tensor A) :=
  match x with
  | Scalar _ => Raise IndexError
  | Rows rows => Ok (Rows (upd rows))
  end.

(* ================================================================== *)
(** * Values passed between transforms *)

Definition C : Type := (R * R)%type.

Definition Cre (z : C) : R := fst z.
Definition Cim (z : C) : R := snd z.
Definition Cmul (z w : C) : C :=
  (fst z * fst w - snd z * snd w, fst z * snd w + snd z * fst w).
Definition Cexp (z : C) : C := (exp (fst z) * cos (snd z), exp (fst z) * sin (snd z)).
Definition Cabs (z : C) : R := sqrt (fst z * fst z + snd z * snd z).
Definition RtoC (x : R) : C := (x, 0).
Definition Ci : C := (0, 1).

(** [z.angle()], the argument in (-pi, pi]. *)
Definition Carg (z : C) : R :=
  let (x, y) := z in
  if Rlt_dec 0 x then atan (y / x)
  else if Rlt_dec x 0 then (if Rle_dec 0 y then atan (y / x) + PI else atan (y / x) - PI)
  else if Rlt_dec 0 y then PI / 2
  else if Rlt_dec y 0 then - (PI / 2)
  else 0.

(** [x.angle()] of a real number. *)
Definition Rarg (x : R) : R := if Rlt_dec x 0 then PI else 0.

Inductive Value : Type :=
| VReal (t : tensor R)
| VComplex (t : tensor C)
| VTuple (a b : Value).

(** The entries of a tensor value as complex numbers. *)
Definition complex_entries (v : Value) : option (tensor C) :=
  match v with
  | VReal t => Some (tmap RtoC t)
  | VComplex t => Some t
  | VTuple _ _ => None
  end.

(** Two tensors of one shape whose entries differ by at most [tol] in both
    parts. *)
Fixpoint tclose (tol : R) (s t : tensor C) : Prop :=
  match s, t with
  | Scalar a, Scalar b =>
      Rabs (fst a - fst b) <= tol /\ Rabs (snd a - snd b) <= tol
  | Rows ls, Rows lt =>
      (fix rows (ls lt : list (tensor C)) : Prop :=
         match ls, lt with
         | [], [] => True
         | a :: ra, b :: rb => tclose tol a b /\ rows ra rb
         | _, _ => False
         end) ls lt
  | _, _ => False
  end.

Definition approx (tol : R) (a b : Value) : Prop :=
  match complex_entries a, complex_entries b with
  | Some s, Some t => tclose tol s t
  | _, _ => False
  end.

(** The default [tolerance=1.e-4]. *)
Definition default_tolerance : R := 1 / 10000.

(* ================================================================== *)
(** * base.py: transforms and their composition *)

(** The keyword arguments [inversion_mode] and [tolerance] of [invert]. *)
Record Kwargs : Type := mkKwargs {
  inversion_mode : option string;
  tolerance : R
}.

(** The defaults [inversion_mode=None, tolerance=1.e-4]. *)
Definition default_kwargs : Kwargs := mkKwargs None default_tolerance.

(** An instance of a class derived from [AudioTransform] other than
    [ComposeAudioTransform], seen through the attributes and methods that
    base.py uses.  [obj_invert x None] is the call [t.invert(x)];
    [obj_invert x (Some k)] is the call
    [t.invert(x, inversion_mode=.., tolerance=..)]. *)
Record TransformObject : Type := mkObject {
  obj_invertible : bool;
  obj_scriptable : bool;
  obj_needs_scaling : bool;
  obj_forward : Value -> result Value;
  obj_invert : Value -> option Kwargs -> result Value
}.

Inductive AudioTransform : Type :=
| Single (o : TransformObject)
| ComposeAudioTransform (transforms : list AudioTransform).

(** [AudioTransform.forward] and [AudioTransform.invert]: the class
    attributes are [invertible = True], [scriptable = False],
    [needs_scaling = False]; [invert(self, x)] takes no keyword. *)
Definition AudioTransform_forward (x : Value) : result Value := Ok x.

Definition AudioTransform_invert (x : Value) (kw : option Kwargs) : result Value :=
  match kw with
  | None => Ok x
  | Some _ => Raise TypeError
  end.

(** A class that inherits everything from [AudioTransform] and sets the
    three class attributes. *)
Definition plain_transform (invertible scriptable needs_scaling : bool)
  : TransformObject :=
  mkObject invertible scriptable needs_scaling
           AudioTransform_forward AudioTransform_invert.

(** [AudioTransform()] itself, and [Dummy()] of spectral_repr.py. *)
Definition base_object : TransformObject := plain_transform true false false.
Definition Dummy : TransformObject := base_object.

(** The loops of the three properties of [ComposeAudioTransform]. *)
Fixpoint invertible (t : AudioTransform) : bool :=
  match t with
  | Single o => obj_invertible o
  | ComposeAudioTransform ts =>
      (fix loop (l : list AudioTransform) : bool :=
         match l with
         | [] => true
         | t :: r => if negb (invertible t) then false else loop r
         end) ts
  end.

Fixpoint needs_scaling (t : AudioTransform) : bool :=
  match t with
  | Single o => obj_needs_scaling o
  | ComposeAudioTransform ts =>
      (fix loop (l : list AudioTransform) : bool :=
         match l with
         | [] => false
         | t :: r => if needs_scaling t then true else loop r
         end) ts
  end.

Fixpoint scriptable (t : AudioTransform) : bool :=
  match t with
  | Single o => obj_scriptable o
  | ComposeAudioTransform ts =>
      (fix loop (l : list AudioTransform) : bool :=
         match l with
         | [] => true
         | t :: r => if negb (scriptable t) then false else loop r
         end) ts
  end.

(** [ComposeAudioTransform.forward]: [for t in self.transforms: x = t(x)]. *)
Fixpoint forward (t : AudioTransform) (x : Value) : result Value :=
  match t with
  | Single o => obj_forward o x
  | ComposeAudioTransform ts =>
      (fix loop (l : list AudioTransform) (x : Value) : result Value :=
         match l with
         | [] => Ok x
         | t :: r => y <- forward t x ;; loop r y
         end) ts x
  end.

Definition resolve_kwargs (kw : option Kwargs) : Kwargs :=
  match kw with
  | Some k => k
  | None => default_kwargs
  end.

(** [ComposeAudioTransform.invert]: the children are visited from the last
    to the first, each called with both keywords.  The recursion inverts
    the tail of the list before its head; [invert_compose_reversed] below
    states it as the loop over [self.transforms[::-1]]. *)
Fixpoint invert (t : AudioTransform) (x : Value) (kw : option Kwargs)
  : result Value :=
  match t with
  | Single o => obj_invert o x kw
  | ComposeAudioTransform ts =>
      (fix loop (l : list AudioTransform) : result Value :=
         match l with
         | [] => Ok x
         | t :: r => y <- loop r ;; invert t y (Some (resolve_kwargs kw))
         end) ts
  end.

(** The loop [for t in ts: x = t.invert(x, inversion_mode=.., tolerance=..)]
    over a list already in visiting order. *)
Fixpoint invert_loop (ts : list AudioTransform) (x : Value) (k : Kwargs)
  : result Value :=
  match ts with
  | [] => Ok x
  | t :: r => y <- invert t x (Some k) ;; invert_loop r y k
  end.

(** The right operand of [+]: a transform or any other Python value. *)
Inductive PyObject : Type :=
| PTransform (t : AudioTransform)
| PNotATransform.

(** A Python sequence of transforms: a [list] or an [nn.ModuleList]. *)
Inductive Sequence : Type :=
| PyList (items : list AudioTransform)
| ModuleList (modules : list AudioTransform).

(** [a + b] on sequences.  [list.__add__] takes a list only and
    [nn.ModuleList] defines no [__radd__]: [list + ModuleList] raises
    [TypeError].  [ModuleList.__add__] takes any iterable and returns an
    [nn.ModuleList]. *)
Definition sequence_add (a b : Sequence) : result Sequence :=
  match a, b with
  | PyList l1, PyList l2 => Ok (PyList (l1 ++ l2))
  | PyList _, ModuleList _ => Raise TypeError
  | ModuleList l1, PyList l2 => Ok (ModuleList (l1 ++ l2))
  | ModuleList l1, ModuleList l2 => Ok (ModuleList (l1 ++ l2))
  end.

(** [ComposeAudioTransform(transforms)]: the children are
    [nn.ModuleList(transforms)]. *)
Definition Compose_init (transforms : Sequence) : AudioTransform :=
  match transforms with
  | PyList l => ComposeAudioTransform l
  | ModuleList l => ComposeAudioTransform l
  end.

(** [AudioTransform.__add__]: [transform.transforms] is an
    [nn.ModuleList]. *)
Definition AudioTransform_add (self : AudioTransform) (transform : PyObject)
  : result AudioTransform :=
  match transform with
  | PTransform (ComposeAudioTransform ts) =>
      s <- sequence_add (PyList [self]) (ModuleList ts) ;; Ok (Compose_init s)
  | PTransform t => Ok (Compose_init (PyList [self; t]))
  | PNotATransform => Raise TypeError
  end.

(** [ComposeAudioTransform.__add__]. *)
Definition Compose_add (self_transforms : list AudioTransform) (itm : PyObject)
  : result AudioTransform :=
  match itm with
  | PNotATransform => Raise TypeError
  | PTransform (ComposeAudioTransform ts) =>
      s <- sequence_add (ModuleList self_transforms) (ModuleList ts) ;;
      Ok (Compose_init s)
  | PTransform t =>
      s <- sequence_add (ModuleList self_transforms) (PyList [t]) ;;
      Ok (Compose_init s)
  end.

(** [ComposeAudioTransform.__radd__]. *)
Definition Compose_radd (self_transforms : list AudioTransform) (other : PyObject)
  : result AudioTransform :=
  match other with
  | PNotATransform => Raise TypeError
  | PTransform (ComposeAudioTransform ts) =>
      s <- sequence_add (ModuleList ts) (ModuleList self_transforms) ;;
      Ok (Compose_init s)
  | PTransform t =>
      s <- sequence_add (PyList [t]) (ModuleList self_transforms) ;;
      Ok (Compose_init s)
  end.

(** [a + b]: the [__add__] of the class of [a]. *)
Definition add (a : AudioTransform) (b : PyObject) : result AudioTransform :=
  match a with
  | ComposeAudioTransform ts => Compose_add ts b
  | Single _ => AudioTransform_add a b
  end.

(** The children a transform contributes to a composition. *)
Definition children (t : AudioTransform) : list AudioTransform :=
  match t with
  | ComposeAudioTransform ts => ts
  | Single _ => [t]
  end.

(** The transform with the attribute [invertible] of every object that
    is no composition set to [b]. *)
Fixpoint with_invertible (b : bool) (t : AudioTransform) : AudioTransform :=
  match t with
  | Single o =>
      Single (mkObject b (obj_scriptable o) (obj_needs_scaling o)
                       (obj_forward o) (obj_invert o))
  | ComposeAudioTransform ts =>
      ComposeAudioTransform (map (with_invertible b) ts)
  end.

(* ================================================================== *)
(** * spectral_repr.py: tensor methods used by the representations *)

(** [x.real]. *)
Definition real (x : Value) : result Value :=
  match x with
  | VReal t => Ok (VReal t)
  | VComplex t => Ok (VReal (tmap Cre t))
  | VTuple _ _ => Raise AttributeError
  end.

(** [x.imag]: only defined on complex tensors. *)
Definition imag (x : Value) : result Value :=
  match x with
  | VReal _ => Raise RuntimeError
  | VComplex t => Ok (VReal (tmap Cim t))
  | VTuple _ _ => Raise AttributeError
  end.

(** [x.abs()]. *)
Definition abs (x : Value) : result Value :=
  match x with
  | VReal t => Ok (VReal (tmap Rabs t))
  | VComplex t => Ok (VReal (tmap Cabs t))
  | VTuple _ _ => Raise AttributeError
  end.

(** [x.angle()]. *)
Definition angle (x : Value) : result Value :=
  match x with
  | VReal t => Ok (VReal (tmap Rarg t))
  | VComplex t => Ok (VReal (tmap Carg t))
  | VTuple _ _ => Raise AttributeError
  end.

(** [torch.is_complex(x)]. *)
Definition is_complex (x : Value) : result bool :=
  match x with
  | VReal _ => Ok false
  | VComplex _ => Ok true
  | VTuple _ _ => Raise TypeError
  end.

(** [torch.zeros_like(x)]. *)
Definition zeros_like (x : Value) : result Value :=
  match x with
  | VReal t => Ok (VReal (tmap (fun _ => 0) t))
  | VComplex t => Ok (VComplex (tmap (fun _ => (0, 0)) t))
  | VTuple _ _ => Raise TypeError
  end.

(** Elementwise function of a tensor value, real or complex. *)
Definition pointwise (fr : R -> R) (fc : C -> C) (x : Value) : result Value :=
  match x with
  | VReal t => Ok (VReal (tmap fr t))
  | VComplex t => Ok (VComplex (tmap fc t))
  | VTuple _ _ => Raise TypeError
  end.

(** Multiplication of a complex number by the real number [c]. *)
Definition Cscale (c : R) (z : C) : C := (c * fst z, c * snd z).

(** [x.ndim] of a tensor value. *)
Definition value_ndim (x : Value) : result nat :=
  match x with
  | VReal t => Ok (ndim t)
  | VComplex t => Ok (ndim t)
  | VTuple _ _ => Raise AttributeError
  end.

(** The size of dimension [d]. *)
Fixpoint size_at {A : Type} (d : nat) (t : tensor A) : result nat :=
  match d, t with
  | _, Scalar _ => Raise IndexError
  | O, Rows rows => Ok (List.length rows)
  | S _, Rows [] => Raise IndexError
  | S d', Rows (h :: _) => size_at d' h
  end.

(** [x.size(-2)]. *)
Definition size_m2 (x : Value) : result nat :=
  match x with
  | VReal t => d <- resolve_dim (-2) (ndim t) ;; size_at d t
  | VComplex t => d <- resolve_dim (-2) (ndim t) ;; size_at d t
  | VTuple _ _ => Raise AttributeError
  end.

(* ================================================================== *)
(** * spectral_repr.py: elementary representations *)

(** The [norm] attribute of a representation: [self.norm(x)] and
    [self.norm.invert(x)]. *)
Record Normalizer : Type := mkNormalizer {
  norm_call : Value -> result Value;
  norm_invert : Value -> result Value
}.

(** [self.norm = Dummy()], chosen when [mode is None]. *)
Definition Dummy_norm : Normalizer :=
  mkNormalizer (obj_forward Dummy) (fun x => obj_invert Dummy x None).

(** [_Representation.invert]. *)
Definition Representation_invert (norm : Normalizer) (x : Value) : result Value :=
  norm_invert norm x.

(** [Real.forward]. *)
Definition Real_forward (norm : Normalizer) (x : Value) : result Value :=
  r <- real x ;; norm_call norm r.

(** [Imaginary.forward]. *)
Definition Imaginary_forward (norm : Normalizer) (x : Value) : result Value :=
  c <- is_complex x ;;
  if c then (i <- imag x ;; norm_call norm i) else zeros_like x.

(** [Imaginary.invert], inherited from [_Representation]. *)
Definition Imaginary_invert (norm : Normalizer) (x : Value) : result Value :=
  Representation_invert norm x.

(** [Phase.forward]. *)
Definition Phase_forward (norm : Normalizer) (x : Value) : result Value :=
  a <- angle x ;; norm_call norm a.

Inductive ContrastMode : Type := CONTRAST_NONE | LOG | LOG1P.

(** The [contrast] argument: a member of the enumeration or anything else. *)
Inductive ContrastValue : Type :=
| Contrast (c : ContrastMode)
| OtherContrast.

(** The two registered buffers of [Magnitude] as the products with them:
    [torch.bmm(mag, bank.repeat(mag.size(0), 1, 1))] and
    [torch.matmul(mag, bank)]. *)
Record MelBanks : Type := mkMelBanks {
  bmm_mel_bank : Value -> result Value;
  matmul_mel_bank : Value -> result Value;
  bmm_inverse_mel_bank : Value -> result Value;
  matmul_inverse_mel_bank : Value -> result Value
}.

(** [torch.log] and [torch.exp] on one entry of a real and of a complex
    floating-point tensor: functions of the torch library, taken as
    parameters; their rounding is not modelled. *)
Record TorchMath : Type := mkTorchMath {
  torch_log : R -> R;
  torch_exp : R -> R;
  torch_log_complex : C -> C;
  torch_exp_complex : C -> C
}.

Record MagnitudeConfig : Type := mkMagnitude {
  mag_norm : Normalizer;
  contrast_mode : ContrastValue;
  mel : bool;
  eps : R;
  banks : MelBanks;
  math : TorchMath
}.

(** [Magnitude.contrast]; [torch.clamp(mag, eps, None)] is the maximum
    with [eps] and is not defined on complex tensors. *)
Definition contrast (m : MagnitudeConfig) (mag : Value) : result Value :=
  match contrast_mode m with
  | Contrast LOG1P =>
      pointwise (fun v => torch_log (math m) (1 + v))
                (fun z => torch_log_complex (math m) (1 + fst z, snd z)) mag
  | Contrast LOG =>
      match mag with
      | VReal t =>
          Ok (VReal (tmap (fun v => torch_log (math m) (Rmax v (eps m))) t))
      | VComplex _ => Raise RuntimeError
      | VTuple _ _ => Raise TypeError
      end
  | Contrast CONTRAST_NONE => Ok mag
  | OtherContrast => Raise TypeError
  end.

(** [Magnitude.invert_contrast]. *)
Definition invert_contrast (m : MagnitudeConfig) (mag : Value) : result Value :=
  match contrast_mode m with
  | Contrast LOG1P =>
      pointwise (fun v => torch_exp (math m) v - 1)
                (fun z => (fst (torch_exp_complex (math m) z) - 1,
                           snd (torch_exp_complex (math m) z))) mag
  | Contrast LOG =>
      pointwise (fun v => torch_exp (math m) v - eps m)
                (fun z => (fst (torch_exp_complex (math m) z) - eps m,
                           snd (torch_exp_complex (math m) z))) mag
  | Contrast CONTRAST_NONE => Ok mag
  | OtherContrast => Raise TypeError
  end.

(** [Magnitude.forward]. *)
Definition Magnitude_forward (m : MagnitudeConfig) (x : Value) : result Value :=
  mag <- abs x ;;
  mag <- (if mel m then
            n <- value_ndim mag ;;
            if Nat.eqb n 3 then bmm_mel_bank (banks m) mag
            else matmul_mel_bank (banks m) mag
          else Ok mag) ;;
  mag <- contrast m mag ;;
  norm_call (mag_norm m) mag.

(** [Magnitude.invert]. *)
Definition Magnitude_invert (m : MagnitudeConfig) (x : Value) : result Value :=
  mag <- norm_invert (mag_norm m) x ;;
  mag <- invert_contrast m mag ;;
  if mel m then
    n <- value_ndim mag ;;
    if Nat.eqb n 3 then bmm_inverse_mel_bank (banks m) mag
    else matmul_inverse_mel_bank (banks m) mag
  else Ok mag.

(* ================================================================== *)
(** * spectral_repr.py: instantaneous frequency *)

Inductive IFMethods : Type := FORWARD | BACKWARD | CENTRAL.

(** The [method] argument: a member of [IFMethods] or anything else. *)
Inductive MethodValue : Type :=
| Method (m : IFMethods)
| OtherMethod.

(** [self.method == IFMethods.X]. *)
Definition method_is (v : MethodValue) (m : IFMethods) : bool :=
  match v, m with
  | Method FORWARD, FORWARD => true
  | Method BACKWARD, BACKWARD => true
  | Method CENTRAL, CENTRAL => true
  | _, _ => false
  end.

(** The functions imported from [utils/misc.py]. *)
Record Misc : Type := mkMisc {
  unwrap : Value -> result Value;
  fdiff_forward : Value -> result Value;
  fdiff_backward : Value -> result Value;
  fdiff_central : Value -> result Value;
  fint_forward : Value -> result Value;
  fint_backward : Value -> result Value;
  fint_central : Value -> result Value
}.

(** The attribute [weighted_window]: [torch.zeros(0, 0)] after
    construction, then the one-dimensional window last computed. *)
Inductive WindowBuffer : Type :=
| Zeros_0_0
| Window (w : list R).

Record IFTransform : Type := mkIF {
  if_norm : Normalizer;
  method : MethodValue;
  weighted : bool;
  weighted_window : WindowBuffer
}.

(** [x[slice] /= c] and [x[slice] *= c] along dimension 0. *)
Definition idiv_slice
  (upd : forall A : Type, (A -> A) -> list A -> list A) (c : R) (x : Value)
  : result Value :=
  match x with
  | VReal t =>
      r <- slice_update (upd _ (tmap (fun v => v / c))) t ;; Ok (VReal r)
  | VComplex t =>
      r <- slice_update (upd _ (tmap (fun z : C => (fst z / c, snd z / c)))) t ;;
      Ok (VComplex r)
  | VTuple _ _ => Raise TypeError
  end.

Definition imul_slice
  (upd : forall A : Type, (A -> A) -> list A -> list A) (c : R) (x : Value)
  : result Value :=
  match x with
  | VReal t =>
      r <- slice_update (upd _ (tmap (fun v => v * c))) t ;; Ok (VReal r)
  | VComplex t =>
      r <- slice_update (upd _ (tmap (fun z : C => (fst z * c, snd z * c)))) t ;;
      Ok (VComplex r)
  | VTuple _ _ => Raise TypeError
  end.

(** [self.weighted_window.size(-2)]. *)
Definition buffer_size_m2 (b : WindowBuffer) : result nat :=
  match b with
  | Zeros_0_0 => Ok O
  | Window _ => Raise IndexError
  end.

(** One entry of
    [(1.5 * N) / (N ** 2 - 1) * (1 - ((n - (N / 2 - 1)) / (N / 2)) ** 2)]. *)
Definition window_entry (N n : nat) : R :=
  (1.5 * INR N) / (INR N ^ 2 - 1)
  * (1 - ((INR n - (INR N / 2 - 1)) / (INR N / 2)) ^ 2).

(** The window over [n = torch.arange(N)]; [N ** 2 - 1] is an integer and
    the division by it raises when it is zero. *)
Definition compute_window (N : nat) : result (list R) :=
  if Nat.eqb (N ^ 2) 1 then Raise ZeroDivisionError
  else Ok (map (window_entry N) (seq 0 N)).

(** Multiplication of the rows along dimension [d] by the entries of [w],
    the broadcast product with [w.view([1, .., N, 1])]. *)
Fixpoint zip_rows {A : Type} (f : R -> A -> A) (w : list R) (rows : list A)
  : list A :=
  match w, rows with
  | c :: w', r :: rows' => f c r :: zip_rows f w' rows'
  | _, _ => []
  end.

Fixpoint scale_rows_at {A : Type} (mul : R -> A -> A) (d : nat) (w : list R)
  (t : tensor A) : tensor A :=
  match d, t with
  | _, Scalar a => Scalar a
  | O, Rows rows => Rows (zip_rows (fun c r => tmap (mul c) r) w rows)
  | S d', Rows rows => Rows (map (scale_rows_at mul d' w) rows)
  end.

Definition window_times (w : list R) (x : Value) : result Value :=
  match x with
  | VReal t =>
      d <- resolve_dim (-2) (ndim t) ;; Ok (VReal (scale_rows_at Rmult d w t))
  | VComplex t =>
      d <- resolve_dim (-2) (ndim t) ;; Ok (VComplex (scale_rows_at Cscale d w t))
  | VTuple _ _ => Raise TypeError
  end.

(** [IF._get_weighted_window]: the window and the new value of the
    attribute. *)
Definition get_weighted_window (self : IFTransform) (x : Value)
  : result (list R * WindowBuffer) :=
  N <- size_m2 x ;;
  cached <- buffer_size_m2 (weighted_window self) ;;
  buffer <- (if negb (Nat.eqb cached N)
             then (w <- compute_window N ;; Ok (Window w))
             else Ok (weighted_window self)) ;;
  match buffer with
  | Zeros_0_0 => Ok ([], buffer)
  | Window w => Ok (w, buffer)
  end.

(** [IF.get_if]: the frequencies and the new value of [weighted_window]. *)
Definition get_if (u : Misc) (self : IFTransform) (data : Value)
  : result (Value * WindowBuffer) :=
  a <- angle data ;;
  phase <- unwrap u a ;;
  inst_f <-
    (if method_is (method self) BACKWARD then
       f <- fdiff_backward u phase ;; idiv_slice (@upd_tail) (- PI) f
     else if method_is (method self) FORWARD then
       f <- fdiff_forward u phase ;; idiv_slice (@upd_init) PI f
     else if method_is (method self) CENTRAL then
       f <- fdiff_central u phase ;; idiv_slice (@upd_interior) (2 * PI) f
     else Raise AttributeError) ;;
  if weighted self then
    wb <- get_weighted_window self inst_f ;;
    r <- window_times (fst wb) inst_f ;;
    Ok (r, snd wb)
  else Ok (inst_f, weighted_window self).

(** [IF.forward]. *)
Definition IF_forward (u : Misc) (self : IFTransform) (x : Value)
  : result (Value * WindowBuffer) :=
  fb <- get_if u self x ;;
  y <- norm_call (if_norm self) (fst fb) ;;
  Ok (y, snd fb).

(** [IF.invert]: an [if] for BACKWARD, then an [if .. elif] for FORWARD and
    CENTRAL, with no [else]. *)
Definition IF_invert (u : Misc) (self : IFTransform) (x : Value) : result Value :=
  x_denorm <- norm_invert (if_norm self) x ;;
  x_denorm <-
    (if method_is (method self) BACKWARD then
       s <- imul_slice (@upd_tail) (- PI) x_denorm ;; fint_backward u s
     else Ok x_denorm) ;;
  if method_is (method self) FORWARD then
    s <- imul_slice (@upd_init) PI x_denorm ;; fint_forward u s
  else if method_is (method self) CENTRAL then
    s <- imul_slice (@upd_interior) PI x_denorm ;; fint_central u s
  else Ok x_denorm.

(* ================================================================== *)
(** * spectral_repr.py: the five representations as transforms *)

Inductive Representation : Type :=
| Real (norm : Normalizer)
| Imaginary (norm : Normalizer)
| Magnitude (m : MagnitudeConfig)
| Phase (norm : Normalizer)
| IF_ (f : IFTransform).

(** [r(x)]: the output and the representation after the call (only
    [IF] changes, by its window). *)
Definition repr_forward (u : Misc) (r : Representation) (x : Value)
  : result (Value * Representation) :=
  match r with
  | Real n => y <- Real_forward n x ;; Ok (y, r)
  | Imaginary n => y <- Imaginary_forward n x ;; Ok (y, r)
  | Magnitude m => y <- Magnitude_forward m x ;; Ok (y, r)
  | Phase n => y <- Phase_forward n x ;; Ok (y, r)
  | IF_ f =>
      yb <- IF_forward u f x ;;
      Ok (fst yb, IF_ (mkIF (if_norm f) (method f) (weighted f) (snd yb)))
  end.

(** [r.invert(x)]; the keywords are accepted and not used. *)
Definition repr_invert (u : Misc) (r : Representation) (x : Value)
  : result Value :=
  match r with
  | Real n => Representation_invert n x
  | Imaginary n => Imaginary_invert n x
  | Magnitude m => Magnitude_invert m x
  | Phase n => Representation_invert n x
  | IF_ f => IF_invert u f x
  end.

(** The properties [scriptable], [invertible] and [needs_scaling] of
    [_Representation]. *)
Definition repr_scriptable (r : Representation) : bool := true.
Definition repr_invertible (r : Representation) : bool := true.
Definition repr_needs_scaling (r : Representation) : bool := false.

(** A representation in its present state as a child of a composition. *)
Definition repr_object (u : Misc) (r : Representation) : TransformObject :=
  mkObject (repr_invertible r) (repr_scriptable r) (repr_needs_scaling r)
           (fun x => yr <- repr_forward u r x ;; Ok (fst yr))
           (fun x _ => repr_invert u r x).

(* ================================================================== *)
(** * spectral_repr.py: Cartesian, Polar and PolarIF *)

Record SpectralRepresentation : Type := mkSpectral {
  magnitude : Representation;
  phase : Representation;
  stack : option Z
}.

(** The three subclasses, by the classes of their two children. *)
Definition Cartesian (real_norm imag_norm : Normalizer) (stack : option Z)
  : SpectralRepresentation :=
  mkSpectral (Real real_norm) (Imaginary imag_norm) stack.

(** [Magnitude(mode)] as the constructors of [Polar] and [PolarIF] call
    it: [contrast=LOG1P], [mel=True]; [eps] is the machine epsilon of the
    default dtype and the banks come from torchaudio. *)
Definition Magnitude_default (norm : Normalizer) (machine_eps : R)
  (mel_banks : MelBanks) (torch : TorchMath) : MagnitudeConfig :=
  mkMagnitude norm (Contrast LOG1P) true machine_eps mel_banks torch.

Definition Polar (magnitude_norm phase_norm : Normalizer) (stack : option Z)
  (machine_eps : R) (mel_banks : MelBanks) (torch : TorchMath)
  : SpectralRepresentation :=
  mkSpectral (Magnitude (Magnitude_default magnitude_norm machine_eps mel_banks torch))
             (Phase phase_norm) stack.

(** [IF(mode)] as the constructor of [PolarIF] calls it:
    [method=FORWARD], [weighted=False]. *)
Definition PolarIF (magnitude_norm phase_norm : Normalizer) (stack : option Z)
  (machine_eps : R) (mel_banks : MelBanks) (torch : TorchMath)
  : SpectralRepresentation :=
  mkSpectral (Magnitude (Magnitude_default magnitude_norm machine_eps mel_banks torch))
             (IF_ (mkIF phase_norm (Method FORWARD) false Zeros_0_0)) stack.

(** [torch.stack([magnitude, phase], dim=d)]. *)
Definition stack_values (magnitude phase : Value) (d : Z) : result Value :=
  match magnitude, phase with
  | VReal a, VReal b => t <- torch_stack a b d ;; Ok (VReal t)
  | VComplex a, VComplex b => t <- torch_stack a b d ;; Ok (VComplex t)
  | VReal a, VComplex b => t <- torch_stack (tmap RtoC a) b d ;; Ok (VComplex t)
  | VComplex a, VReal b => t <- torch_stack a (tmap RtoC b) d ;; Ok (VComplex t)
  | _, _ => Raise TypeError
  end.

(** [SpectralRepresentation.forward]: the output and the object after
    the call. *)
Definition Spectral_forward (u : Misc) (self : SpectralRepresentation) (x : Value)
  : result (Value * SpectralRepresentation) :=
  mr <- repr_forward u (magnitude self) x ;;
  pr <- repr_forward u (phase self) x ;;
  out <- match stack self with
         | Some d => stack_values (fst mr) (fst pr) d
         | None => Ok (VTuple (fst mr) (fst pr))
         end ;;
  Ok (out, mkSpectral (snd mr) (snd pr) (stack self)).

(** [x[i]]. *)
Definition getitem (x : Value) (i : nat) : result Value :=
  match x with
  | VTuple a b =>
      match i with
      | O => Ok a
      | S O => Ok b
      | _ => Raise IndexError
      end
  | VReal t => r <- select_at 0 i t ;; Ok (VReal r)
  | VComplex t => r <- select_at 0 i t ;; Ok (VComplex r)
  end.

(** [x.index_select(d, torch.tensor(i)).squeeze(d)]. *)
Definition select_value (x : Value) (d : Z) (i : nat) : result Value :=
  match x with
  | VReal t => r <- index_select_squeeze t d i ;; Ok (VReal r)
  | VComplex t => r <- index_select_squeeze t d i ;; Ok (VComplex r)
  | VTuple _ _ => Raise AttributeError
  end.

(** [mag * torch.exp(phase * torch.full(phase.shape, 1j))]. *)
Definition polar_product (mag phase : Value) : result Value :=
  e <- match phase with
       | VReal p => Ok (tmap (fun v => Cexp (Cmul (RtoC v) Ci)) p)
       | VComplex p => Ok (tmap (fun z => Cexp (Cmul z Ci)) p)
       | VTuple _ _ => Raise AttributeError
       end ;;
  match mag with
  | VReal m => t <- tmap2 (fun a z => Cmul (RtoC a) z) m e ;; Ok (VComplex t)
  | VComplex m => t <- tmap2 Cmul m e ;; Ok (VComplex t)
  | VTuple _ _ => Raise TypeError
  end.

(** [SpectralRepresentation.invert]. *)
Definition Spectral_invert (u : Misc) (self : SpectralRepresentation) (x : Value)
  : result Value :=
  mp <- match stack self with
        | None => m <- getitem x 0 ;; p <- getitem x 1 ;; Ok (m, p)
        | Some d =>
            m <- select_value x d 0 ;; p <- select_value x d 1 ;; Ok (m, p)
        end ;;
  mag <- repr_invert u (magnitude self) (fst mp) ;;
  ph <- repr_invert u (phase self) (snd mp) ;;
  polar_product mag ph.

(** A tensor of [T] rows and [F] columns filled with [c]. *)
Definition full2 {A : Type} (T F : nat) (c : A) : tensor A :=
  Rows (repeat (Rows (repeat (Scalar c) F)) T).

(* ================================================================== *)
(** * Instances used in the examples *)

(** A [Misc] none of whose functions is available: what is evaluated
    with it does not depend on [utils/misc.py]. *)
Definition absent_misc : Misc :=
  let absent := fun _ : Value => @Raise Value NotImplementedError in
  mkMisc absent absent absent absent absent absent absent.

(** [Real(mode=None)] as a child of a composition. *)
Definition Real_none : AudioTransform :=
  Single (repr_object absent_misc (Real Dummy_norm)).

(** A class derived from [AudioTransform] that only sets
    [invertible = False]. *)
Definition not_invertible_plain : AudioTransform :=
  Single (plain_transform false false false).

(** [IF(mode=None, method=m)] before any call. *)
Definition IF_none (m : IFMethods) : IFTransform :=
  mkIF Dummy_norm (Method m) false Zeros_0_0.

(** The 1 x 1 tensors [1+1j] and [1]. *)
Definition one_plus_j : Value := VComplex (full2 1 1 (1, 1)).
Definition real_one : Value := VReal (full2 1 1 1).

(* ================================================================== *)
(** * base.py: the remaining methods and the list helpers *)

Section AudioTransformInduction.
Variable P : AudioTransform -> Prop.
Hypothesis P_single : forall o, P (Single o).
Hypothesis P_compose : forall ts, Forall P ts -> P (ComposeAudioTransform ts).

Fixpoint AudioTransform_nested_ind (t : AudioTransform) : P t :=
  match t with
  | Single o => P_single o
  | ComposeAudioTransform ts =>
      P_compose
        ((fix all (l : list AudioTransform) : Forall P l :=
            match l with
            | [] => Forall_nil P
            | x :: r => Forall_cons x (AudioTransform_nested_ind x) (all r)
            end) ts)
  end.

End AudioTransformInduction.

(** [AudioTransform.forward_with_time], which every class of the two
    files but [ComposeAudioTransform] inherits, and
    [ComposeAudioTransform.forward_with_time]. *)
Fixpoint forward_with_time (t : AudioTransform) (x time : Value)
  : result (Value * Value) :=
  match t with
  | Single o => y <- obj_forward o x ;; Ok (y, time)
  | ComposeAudioTransform ts =>
      (fix loop (l : list AudioTransform) (x time : Value)
         : result (Value * Value) :=
         match l with
         | [] => Ok (x, time)
         | t :: r =>
             xt <- forward_with_time t x time ;; loop r (fst xt) (snd xt)
         end) ts x time
  end.

(** [ComposeAudioTransform.__getitem__] with an integer [item]: the
    index is resolved as [nn.ModuleList] does.  The other classes define
    no [__getitem__]. *)
Definition getitem_transform (t : AudioTransform) (item : Z)
  : result AudioTransform :=
  match t with
  | Single _ => Raise TypeError
  | ComposeAudioTransform ts =>
      i <- resolve_dim item (List.length ts) ;;
      match nth_error ts i with
      | Some c => Ok c
      | None => Raise IndexError
      end
  end.

(** The leaves of a transform: the objects that are not compositions, in
    the order [forward] meets them. *)
Fixpoint leaves (t : AudioTransform) : list AudioTransform :=
  match t with
  | Single _ => [t]
  | ComposeAudioTransform ts => flat_map leaves ts
  end.

(** Each transform of [ts], fed the output of the one before, starting
    from [x], is undone by its [invert] called with the keywords [k]. *)
Fixpoint roundtrip_chain (k : Kwargs) (ts : list AudioTransform) (x : Value)
  : Prop :=
  match ts with
  | [] => True
  | t :: r =>
      exists y, forward t x = Ok y /\ invert t y (Some k) = Ok x /\
                roundtrip_chain k r y
  end.

(** What the two list helpers return: a list, or a pair of lists when
    [time] is given. *)
Inductive ListOutput : Type :=
| Outs (outs : list Value)
| OutsWithTime (outs times : list Value).

(** The binding of keyword arguments: a keyword that names none of the
    parameters of the method raises [TypeError]. *)
Definition bind_keywords (parameters keywords : list string) : result unit :=
  if forallb (fun k => existsb (String.eqb k) parameters) keywords
  then Ok tt else Raise TypeError.

(** The parameters after [x]: none in [forward(self, x)], which is the
    signature in every class of the two files; [inversion_mode] and
    [tolerance] in [invert], but in [AudioTransform.invert(self, x)]. *)
Definition forward_parameters : list string := [].
Definition invert_parameters : list string :=
  ["inversion_mode"%string; "tolerance"%string].

(** [transform(x, time=t)] and [transform.invert(x, time=t)]. *)
Definition call_with_time (transform : AudioTransform) (x time : Value)
  : result Value :=
  _ <- bind_keywords forward_parameters ["time"%string] ;;
  forward transform x.

Definition invert_with_time (transform : AudioTransform) (x time : Value)
  : result Value :=
  _ <- bind_keywords invert_parameters ["time"%string] ;;
  invert transform x None.

(** The comprehension
    [[f(data[i], time=time[i]) for i in range(len(data))]], from index
    [i] on. *)
Fixpoint timed_outs (f : Value -> Value -> result Value)
  (data time : list Value) (i : nat) : result (list Value) :=
  match data with
  | [] => Ok []
  | d :: r =>
      t <- match nth_error time i with
           | Some t => Ok t
           | None => Raise IndexError
           end ;;
      o <- f d t ;;
      os <- timed_outs f r time (S i) ;;
      Ok (o :: os)
  end.

(** [[o[0] for o in outs], [o[1] for o in outs]]. *)
Definition unzip_outs (outs : list Value) : result ListOutput :=
  firsts <- mapM (fun o => getitem o 0) outs ;;
  seconds <- mapM (fun o => getitem o 1) outs ;;
  Ok (OutsWithTime firsts seconds).

(** [apply_transform_to_list(transform, data, time)], without further
    keywords. *)
Definition apply_transform_to_list (transform : AudioTransform)
  (data : list Value) (time : option (list Value)) : result ListOutput :=
  match time with
  | None => outs <- mapM (forward transform) data ;; Ok (Outs outs)
  | Some time =>
      outs <- timed_outs (call_with_time transform) data time 0 ;;
      unzip_outs outs
  end.

(** [apply_invert_transform_to_list(transform, data, time)], without
    further keywords. *)
Definition apply_invert_transform_to_list (transform : AudioTransform)
  (data : list Value) (time : option (list Value)) : result ListOutput :=
  match time with
  | None =>
      outs <- mapM (fun x => invert transform x None) data ;; Ok (Outs outs)
  | Some time =>
      outs <- timed_outs (invert_with_time transform) data time 0 ;;
      unzip_outs outs
  end.

(* ================================================================== *)
(** * Notions used to state the properties of spectral_repr.py *)

(** No dimension of the tensor has size 0. *)
Fixpoint nonempty {A : Type} (t : tensor A) : bool :=
  match t with
  | Scalar _ => true
  | Rows rows =>
      match rows with
      | [] => false
      | _ =>
          (fix all (l : list (tensor A)) : bool :=
             match l with
             | [] => true
             | x :: r => nonempty x && all r
             end) rows
      end
  end.

(** A normalization that acts on real tensors entry by entry: [f] on the
    way in, [g] on the way back. *)
Definition elementwise (norm : Normalizer) (f g : R -> R) : Prop :=
  forall t : tensor R,
    norm_call norm (VReal t) = Ok (VReal (tmap f t)) /\
    norm_invert norm (VReal t) = Ok (VReal (tmap g t)).

(** The sum of a list of numbers. *)
Definition Rsum (l : list R) : R := fold_right Rplus 0 l.

(** A [Misc] whose functions return their argument. *)
Definition passthrough_misc : Misc :=
  let pass := fun x : Value => Ok x in
  mkMisc pass pass pass pass pass pass pass.

(** Two classes derived from [AudioTransform] whose [forward] and
    [invert] act on the entries of a real tensor, and whose [invert]
    takes the keywords. *)
Definition entrywise_object (f g : R -> R) : TransformObject :=
  mkObject true false false
    (fun x => match x with
              | VReal t => Ok (VReal (tmap f t))
              | _ => Raise TypeError
              end)
    (fun x _ => match x with
                | VReal t => Ok (VReal (tmap g t))
                | _ => Raise TypeError
                end).

Definition plus_one : AudioTransform :=
  Single (entrywise_object (fun v => v + 1) (fun v => v - 1)).

Definition times_two : AudioTransform :=
  Single (entrywise_object (fun v => v * 2) (fun v => v / 2)).

(* ================================================================== *)
(** * Theorems: base.py *)

Lemma bind_assoc {A B D : Type} (c : result A) (f : A -> result B)
  (g : B -> result D) :
  (y <- (x <- c ;; f x) ;; g y) = (x <- c ;; y <- f x ;; g y).
Proof. destruct c; reflexivity. Qed.

Lemma bind_ok_r {A : Type} (c : result A) : (x <- c ;; Ok x) = c.
Proof. destruct c; reflexivity. Qed.

Lemma forward_cons t r x :
  forward (ComposeAudioTransform (t :: r)) x
  = (y <- forward t x ;; forward (ComposeAudioTransform r) y).
Proof. reflexivity. Qed.

Lemma invert_cons t r x kw :
  invert (ComposeAudioTransform (t :: r)) x kw
  = (y <- invert (ComposeAudioTransform r) x kw ;;
     invert t y (Some (resolve_kwargs kw))).
Proof. reflexivity. Qed.

Lemma forward_app l1 l2 x :
  forward (ComposeAudioTransform (l1 ++ l2)) x
  = (y <- forward (ComposeAudioTransform l1) x ;;
     forward (ComposeAudioTransform l2) y).
Proof.
  revert x; induction l1 as [|t r IH]; intro x.
  - reflexivity.
  - change ((t :: r) ++ l2) with (t :: (r ++ l2)).
    rewrite !forward_cons, bind_assoc.
    destruct (forward t x) as [y|e]; simpl; [apply IH | reflexivity].
Qed.

Lemma invert_app l1 l2 x kw :
  invert (ComposeAudioTransform (l1 ++ l2)) x kw
  = (y <- invert (ComposeAudioTransform l2) x kw ;;
     invert (ComposeAudioTransform l1) y kw).
Proof.
  induction l1 as [|t r IH].
  - simpl app. symmetry. apply bind_ok_r.
  - change ((t :: r) ++ l2) with (t :: (r ++ l2)).
    rewrite invert_cons, IH, bind_assoc.
    destruct (invert (ComposeAudioTransform l2) x kw) as [y|e]; reflexivity.
Qed.

Lemma resolve_kwargs_some kw :
  resolve_kwargs (Some (resolve_kwargs kw)) = resolve_kwargs kw.
Proof. reflexivity. Qed.

(** Called with both keywords, a transform and the composition of its
    children invert alike. *)
Lemma invert_children t y k :
  invert (ComposeAudioTransform (children t)) y (Some k) = invert t y (Some k).
Proof.
  destruct t as [o|ts]; reflexivity.
Qed.

Lemma invert_children_default t y kw :
  invert (ComposeAudioTransform (children t)) y kw
  = invert t y (Some (resolve_kwargs kw)).
Proof.
  destruct t as [o|ts]; [reflexivity|].
  destruct kw; reflexivity.
Qed.

Lemma forward_children t x :
  forward (ComposeAudioTransform (children t)) x = forward t x.
Proof.
  destruct t as [o|ts]; [|reflexivity].
  simpl. destruct (obj_forward o x); reflexivity.
Qed.

(** When [A + B] returns, it is the composition of the children of [A]
    followed by those of [B]. *)
Lemma add_ok_children A B ab :
  add A (PTransform B) = Ok ab ->
  ab = ComposeAudioTransform (children A ++ children B).
Proof.
  destruct A as [oa|tsa], B as [ob|tsb]; cbn; intro H;
    try discriminate; now injection H as <-.
Qed.

(** Python tries [ComposeAudioTransform.__radd__] before
    [AudioTransform.__add__] when the left operand is a direct instance of
    [AudioTransform]; both evaluate [list + nn.ModuleList] and raise. *)
Lemma radd_agrees o ts :
  Compose_radd ts (PTransform (Single o))
  = AudioTransform_add (Single o) (PTransform (ComposeAudioTransform ts)) /\
  Compose_radd ts (PTransform (Single o)) = Raise TypeError.
Proof. split; reflexivity. Qed.

Lemma invert_loop_app l1 l2 x k :
  invert_loop (l1 ++ l2) x k = (y <- invert_loop l1 x k ;; invert_loop l2 y k).
Proof.
  revert x; induction l1 as [|t r IH]; intro x; simpl.
  - reflexivity.
  - destruct (invert t x (Some k)) as [y|e]; simpl; [apply IH | reflexivity].
Qed.

(** [ComposeAudioTransform.invert] is the loop over
    [self.transforms[::-1]]. *)
Lemma invert_compose_reversed ts x kw :
  invert (ComposeAudioTransform ts) x kw
  = invert_loop (rev ts) x (resolve_kwargs kw).
Proof.
  induction ts as [|t r IH].
  - reflexivity.
  - rewrite invert_cons, IH. simpl rev. rewrite invert_loop_app.
    destruct (invert_loop (rev r) x (resolve_kwargs kw)) as [y|e]; simpl;
      [|reflexivity].
    destruct (invert t y (Some (resolve_kwargs kw))); reflexivity.
Qed.

Lemma invertible_compose ts :
  invertible (ComposeAudioTransform ts) = forallb invertible ts.
Proof.
  induction ts as [|t r IH]; [reflexivity|].
  simpl in *. destruct (invertible t); simpl; [exact IH | reflexivity].
Qed.

Lemma needs_scaling_compose ts :
  needs_scaling (ComposeAudioTransform ts) = existsb needs_scaling ts.
Proof.
  induction ts as [|t r IH]; [reflexivity|].
  simpl in *. destruct (needs_scaling t); simpl; [reflexivity | exact IH].
Qed.

Lemma scriptable_compose ts :
  scriptable (ComposeAudioTransform ts) = forallb scriptable ts.
Proof.
  induction ts as [|t r IH]; [reflexivity|].
  simpl in *. destruct (scriptable t); simpl; [exact IH | reflexivity].
Qed.

(** C4: the three flags of a composition are computed from the children:
    [invertible] is the conjunction of the children's [invertible],
    [needs_scaling] the disjunction of their [needs_scaling], [scriptable]
    the conjunction of their [scriptable]; for no children the
    conjunctions are true and the disjunction false. *)
Theorem compose_flags_aggregate :
  forall ts : list AudioTransform,
    invertible (ComposeAudioTransform ts) = forallb invertible ts /\
    needs_scaling (ComposeAudioTransform ts) = existsb needs_scaling ts /\
    scriptable (ComposeAudioTransform ts) = forallb scriptable ts /\
    invertible (ComposeAudioTransform []) = true /\
    scriptable (ComposeAudioTransform []) = true /\
    needs_scaling (ComposeAudioTransform []) = false.
Proof.
  intro ts.
  repeat split;
    auto using invertible_compose, needs_scaling_compose, scriptable_compose.
Qed.

(** C6, at a left operand that is no composition: [(A + B) + C] returns
    the composition of [A], [B] and the children of [C], but
    [A + (B + C)] raises [TypeError], as does [A + B] for every composed
    [B]: [AudioTransform.__add__] evaluates [[self] + transform.transforms],
    a [list] plus an [nn.ModuleList].  With a composed left operand the
    sum is the flattened composition. *)
Theorem add_right_nested_raises :
  forall (oa ob : TransformObject) (C0 : AudioTransform),
    (ab <- add (Single oa) (PTransform (Single ob)) ;; add ab (PTransform C0))
    = Ok (ComposeAudioTransform (Single oa :: Single ob :: children C0)) /\
    (bc <- add (Single ob) (PTransform C0) ;; add (Single oa) (PTransform bc))
    = Raise TypeError /\
    (forall ts : list AudioTransform,
        add (Single oa) (PTransform (ComposeAudioTransform ts))
        = Raise TypeError) /\
    (forall (ts : list AudioTransform) (B : AudioTransform),
        add (ComposeAudioTransform ts) (PTransform B)
        = Ok (ComposeAudioTransform (ts ++ children B))).
Proof.
  intros oa ob C0. repeat split.
  - destruct C0 as [oc|tsc]; reflexivity.
  - destruct C0 as [oc|tsc]; reflexivity.
  - intros ts B. destruct B as [o|tsb]; reflexivity.
Qed.

Lemma forward_add A B x :
  forward (ComposeAudioTransform (children A ++ children B)) x
  = (a <- forward A x ;; forward B a).
Proof.
  rewrite forward_app, forward_children.
  destruct (forward A x) as [a|e]; simpl bind; [|reflexivity].
  apply forward_children.
Qed.

Lemma invert_add A B y kw :
  invert (ComposeAudioTransform (children A ++ children B)) y kw
  = (v <- invert B y (Some (resolve_kwargs kw)) ;;
     invert A v (Some (resolve_kwargs kw))).
Proof.
  rewrite invert_app, invert_children_default.
  destruct (invert B y (Some (resolve_kwargs kw))) as [v|e]; simpl bind;
    [|reflexivity].
  apply invert_children_default.
Qed.

(** C5, as the code has it: whenever [A + B] returns,
    [(A + B).forward] applies [A] then [B], and [(A + B).invert(y)] is
    [A.invert(B.invert(y))] with each child called with the keywords
    [inversion_mode] and [tolerance]; and when these calls of [B.invert]
    and [A.invert] undo [B.forward] and [A.forward] on the data at hand,
    [(A + B).invert((A + B).forward(x))] returns [x]. *)
Theorem compose_invert_right_to_left :
  forall A B ab : AudioTransform,
    add A (PTransform B) = Ok ab ->
    (forall x : Value, forward ab x = (a <- forward A x ;; forward B a)) /\
    (forall (y : Value) (kw : option Kwargs),
        invert ab y kw
        = (v <- invert B y (Some (resolve_kwargs kw)) ;;
           invert A v (Some (resolve_kwargs kw)))) /\
    (forall (x a b : Value) (kw : option Kwargs),
        forward A x = Ok a ->
        forward B a = Ok b ->
        invert B b (Some (resolve_kwargs kw)) = Ok a ->
        invert A a (Some (resolve_kwargs kw)) = Ok x ->
        forward ab x = Ok b /\ invert ab b kw = Ok x).
Proof.
  intros A B ab Hadd. apply add_ok_children in Hadd. subst ab.
  split; [|split].
  - intro x. apply forward_add.
  - intros y kw. apply invert_add.
  - intros x a b kw HfA HfB HiB HiA. split.
    + rewrite forward_add, HfA. exact HfB.
    + rewrite invert_add, HiB. exact HiA.
Qed.

(** With [A] adding 1 and [B] doubling, [A + B] takes 1 to (1 + 1) * 2
    and back to 1: [A] is applied first and inverted last. *)
Lemma compose_invert_right_to_left_witness :
  forward (ComposeAudioTransform [plus_one; times_two]) (VReal (Scalar 1))
  = Ok (VReal (Scalar ((1 + 1) * 2))) /\
  invert (ComposeAudioTransform [plus_one; times_two])
         (VReal (Scalar ((1 + 1) * 2))) None
  = Ok (VReal (Scalar 1)).
Proof.
  refine (proj2 (proj2 (@compose_invert_right_to_left
                          plus_one times_two
                          (ComposeAudioTransform [plus_one; times_two]) eq_refl))
            (VReal (Scalar 1)) (VReal (Scalar (1 + 1)))
            (VReal (Scalar ((1 + 1) * 2))) None eq_refl eq_refl _ _);
    cbn; do 3 f_equal; lra.
Defined.

(** C5 as stated fails: [Real(mode=None)] is invertible, and the round
    trip of [1+1j] through [Real + Real] returns the real tensor [1]. *)
Lemma compose_roundtrip_counterexample :
  invertible Real_none = true /\
  exists (ab : AudioTransform) (y r : Value),
    add Real_none (PTransform Real_none) = Ok ab /\
    forward ab one_plus_j = Ok y /\
    invert ab y None = Ok r /\
    ~ approx default_tolerance r one_plus_j.
Proof.
  split; [reflexivity|].
  exists (ComposeAudioTransform [Real_none; Real_none]), real_one, real_one.
  repeat split.
  unfold approx, default_tolerance; simpl.
  intros [[[_ H] _] _].
  replace (0 - 1) with (- (1)) in H by lra.
  rewrite Rabs_Ropp, Rabs_R1 in H. lra.
Qed.

Lemma invert_with_invertible b t y kw :
  invert (with_invertible b t) y kw = invert t y kw.
Proof.
  revert y kw. induction t as [o|ts IH] using AudioTransform_nested_ind;
    intros y kw; [reflexivity|].
  cbn [with_invertible]. induction IH as [|c r Hc _ IHr]; [reflexivity|].
  cbn [map]. rewrite !invert_cons, IHr.
  destruct (invert (ComposeAudioTransform r) y kw) as [v|e]; cbn [bind];
    [apply Hc | reflexivity].
Qed.

Lemma invert_loop_raises ts y k e :
  invert_loop ts y k = Raise e ->
  exists c v, In c ts /\ invert c v (Some k) = Raise e.
Proof.
  revert y. induction ts as [|t r IH]; intros y H; simpl in H; [discriminate|].
  destruct (invert t y (Some k)) as [v|e'] eqn:Ht; cbn [bind] in H.
  - destruct (IH v H) as [c [w [Hin Hc]]]. exists c, w. split; [now right | exact Hc].
  - injection H as ->. exists t, y. split; [now left | exact Ht].
Qed.

(** C3, as the code has it: [invert] does not read the [invertible]
    flag.  With the flag set to either value a transform or a composition
    inverts alike; [AudioTransform.invert(x)] returns [x];
    [ComposeAudioTransform.invert] is the loop over its reversed children
    and raises only what the [invert] of one of its children raises. *)
Theorem invert_does_not_read_invertible :
  forall (t : AudioTransform) (b : bool) (y : Value) (kw : option Kwargs),
    invert (with_invertible b t) y kw = invert t y kw /\
    (forall i s n : bool, invert (Single (plain_transform i s n)) y None = Ok y) /\
    (forall ts : list AudioTransform,
        invert (ComposeAudioTransform ts) y kw
        = invert_loop (rev ts) y (resolve_kwargs kw)) /\
    (forall (ts : list AudioTransform) (e : exn),
        invert (ComposeAudioTransform ts) y kw = Raise e ->
        exists c v, In c ts /\ invert c v (Some (resolve_kwargs kw)) = Raise e).
Proof.
  intros t b y kw. repeat split.
  - apply invert_with_invertible.
  - intro ts. apply invert_compose_reversed.
  - intros ts e H. rewrite invert_compose_reversed in H.
    destruct (invert_loop_raises _ _ _ H) as [c [v [Hin Hc]]].
    exists c, v. split; [now apply in_rev | exact Hc].
Qed.

(** A composition of a non-invertible object: its [invert] raises the
    [TypeError] of the child, not [NotInvertibleError]. *)
Lemma invert_does_not_read_invertible_witness :
  invertible (ComposeAudioTransform [not_invertible_plain]) = false /\
  exists c v,
    In c [not_invertible_plain] /\
    invert c v (Some (resolve_kwargs None)) = Raise TypeError.
Proof.
  split; [reflexivity|].
  exact (proj2 (proj2 (proj2 (@invert_does_not_read_invertible
                                not_invertible_plain true real_one None)))
           [not_invertible_plain] TypeError eq_refl).
Defined.

(** C3 as stated fails: a transform whose [invertible] flag is false
    returns a value from [invert]. *)
Lemma invert_ignores_flag_counterexample :
  invertible not_invertible_plain = false /\
  invert not_invertible_plain real_one None = Ok real_one /\
  invert not_invertible_plain real_one None <> Raise NotInvertibleError.
Proof.
  repeat split. discriminate.
Qed.

(* ================================================================== *)
(** * Theorems: tensors *)

Lemma tmap_ext {A B : Type} (f g : A -> B) (t : tensor A) :
  (forall a, f a = g a) -> tmap f t = tmap g t.
Proof.
  intro H. induction t as [a|rows IH] using tensor_nested_ind; simpl.
  - now rewrite H.
  - f_equal. induction IH as [|x r Hx _ IHr]; simpl; [reflexivity|].
    now rewrite Hx, IHr.
Qed.

Lemma tmap_tmap {A B D : Type} (f : A -> B) (g : B -> D) (t : tensor A) :
  tmap g (tmap f t) = tmap (fun a => g (f a)) t.
Proof.
  induction t as [a|rows IH] using tensor_nested_ind; simpl.
  - reflexivity.
  - f_equal. induction IH as [|x r Hx _ IHr]; simpl; [reflexivity|].
    now rewrite Hx, IHr.
Qed.

Lemma tmap_id {A : Type} (f : A -> A) (t : tensor A) :
  (forall a, f a = a) -> tmap f t = t.
Proof.
  intro H. induction t as [a|rows IH] using tensor_nested_ind; simpl.
  - now rewrite H.
  - f_equal. induction IH as [|x r Hx _ IHr]; simpl; [reflexivity|].
    now rewrite Hx, IHr.
Qed.

Lemma same_shape_tmap {A B : Type} (f : A -> B) (t : tensor A) :
  same_shape (tmap f t) t = true.
Proof.
  induction t as [a|rows IH] using tensor_nested_ind; simpl.
  - reflexivity.
  - induction IH as [|x r Hx _ IHr]; simpl; [reflexivity|].
    now rewrite Hx, IHr.
Qed.

Lemma tall_tmap_const {A B : Type} (b : B) (t : tensor A) :
  tall (fun v => v = b) (tmap (fun _ => b) t).
Proof.
  induction t as [a|rows IH] using tensor_nested_ind; simpl.
  - reflexivity.
  - induction IH as [|x r Hx _ IHr]; simpl; [exact I | split; assumption].
Qed.

Lemma upd_init_compose {A : Type} (f g : A -> A) (l : list A) :
  upd_init g (upd_init f l) = upd_init (fun a => g (f a)) l.
Proof.
  induction l as [|x [|y r] IH]; try reflexivity.
  change (upd_init f (x :: y :: r)) with (f x :: upd_init f (y :: r)).
  change (upd_init (fun a => g (f a)) (x :: y :: r))
    with (g (f x) :: upd_init (fun a => g (f a)) (y :: r)).
  rewrite <- IH. destruct r; reflexivity.
Qed.

Lemma upd_init_id {A : Type} (f : A -> A) (l : list A) :
  (forall a, f a = a) -> upd_init f l = l.
Proof.
  intro H. induction l as [|x [|y r] IH]; try reflexivity.
  change (upd_init f (x :: y :: r)) with (f x :: upd_init f (y :: r)).
  now rewrite H, IH.
Qed.

Lemma upd_tail_compose {A : Type} (f g : A -> A) (l : list A) :
  upd_tail g (upd_tail f l) = upd_tail (fun a => g (f a)) l.
Proof.
  destruct l as [|h r]; simpl; [reflexivity|]. now rewrite map_map.
Qed.

Lemma upd_tail_id {A : Type} (f : A -> A) (l : list A) :
  (forall a, f a = a) -> upd_tail f l = l.
Proof.
  intro H. destruct l as [|h r]; simpl; [reflexivity|].
  f_equal. rewrite <- (map_id r) at 2. apply map_ext, H.
Qed.

Lemma upd_interior_compose {A : Type} (f g : A -> A) (l : list A) :
  upd_interior g (upd_interior f l) = upd_interior (fun a => g (f a)) l.
Proof.
  destruct l as [|h r]; simpl; [reflexivity|]. now rewrite upd_init_compose.
Qed.

Lemma mapM_repeat {A B : Type} (f : A -> result B) (a : A) (b : B) (n : nat) :
  f a = Ok b -> mapM f (repeat a n) = Ok (repeat b n).
Proof.
  intro H. induction n as [|n IH]; simpl; [reflexivity|].
  now rewrite H, IH.
Qed.

Lemma zipM_repeat {A B D : Type} (f : A -> B -> result D) a b d (n : nat) :
  f a b = Ok d -> zipM f (repeat a n) (repeat b n) = Ok (repeat d n).
Proof.
  intro H. induction n as [|n IH]; simpl; [reflexivity|].
  now rewrite H, IH.
Qed.

Lemma tmap_row {A B : Type} (f : A -> B) (c : A) (n : nat) :
  tmap f (Rows (repeat (Scalar c) n)) = Rows (repeat (Scalar (f c)) n).
Proof. simpl. now rewrite map_repeat. Qed.

Lemma tmap_full2 {A B : Type} (f : A -> B) (c : A) (T F : nat) :
  tmap f (full2 T F c) = full2 T F (f c).
Proof.
  unfold full2. cbn [tmap]. rewrite map_repeat. now rewrite tmap_row.
Qed.

Lemma same_shape_row {A B : Type} (a : A) (b : B) (n : nat) :
  same_shape (Rows (repeat (Scalar a) n)) (Rows (repeat (Scalar b) n)) = true.
Proof. induction n as [|n IH]; simpl in *; [reflexivity | exact IH]. Qed.

Lemma tmap2_row {A B D : Type} (f : A -> B -> D) a b (n : nat) :
  tmap2 f (Rows (repeat (Scalar a) n)) (Rows (repeat (Scalar b) n))
  = Ok (Rows (repeat (Scalar (f a b)) n)).
Proof.
  simpl. induction n as [|n IH]; simpl in *; [reflexivity|].
  destruct (_ (repeat (Scalar a) n) (repeat (Scalar b) n)) as [rs|e];
    simpl in *; [|discriminate].
  now injection IH as ->.
Qed.

Lemma tmap2_full2 {A B D : Type} (f : A -> B -> D) a b (T F : nat) :
  tmap2 f (full2 T F a) (full2 T F b) = Ok (full2 T F (f a b)).
Proof.
  unfold full2. cbn [tmap2].
  induction T as [|T IH]; [reflexivity|].
  cbn [repeat]. rewrite tmap2_row. cbn [bind] in *.
  destruct (_ (repeat (Rows (repeat (Scalar a) F)) T)
              (repeat (Rows (repeat (Scalar b) F)) T)) as [rs|e];
    cbn [bind] in *; [|discriminate].
  now injection IH as ->.
Qed.

Lemma ndim_full2 {A : Type} (c : A) (T F : nat) :
  (0 < T)%nat -> (0 < F)%nat -> ndim (full2 T F c) = 2%nat.
Proof.
  intros HT HF. destruct T as [|T]; [lia|]. destruct F as [|F]; [lia|].
  reflexivity.
Qed.

Lemma tclose_full2 (tol : R) (c d : C) (T F : nat) :
  (0 < T)%nat -> (0 < F)%nat ->
  tclose tol (full2 T F c) (full2 T F d) ->
  Rabs (fst c - fst d) <= tol /\ Rabs (snd c - snd d) <= tol.
Proof.
  intros HT HF. destruct T as [|T]; [lia|]. destruct F as [|F]; [lia|].
  simpl. intros [[H _] _]. exact H.
Qed.

(* ================================================================== *)
(** * Theorems: elementary representations *)

(** C8: on a complex tensor [Imaginary.forward] is the normalization of
    the imaginary part; on a real tensor it is a tensor of zeros of the
    shape of the input; [Imaginary.invert] is the inverse normalization
    alone. *)
Theorem Imaginary_forward_invert :
  forall norm : Normalizer,
    (forall t : tensor C,
        Imaginary_forward norm (VComplex t) = norm_call norm (VReal (tmap Cim t))) /\
    (forall t : tensor R,
        exists z : tensor R,
          Imaginary_forward norm (VReal t) = Ok (VReal z) /\
          same_shape z t = true /\
          tall (fun v => v = 0) z) /\
    (forall y : Value, Imaginary_invert norm y = norm_invert norm y).
Proof.
  intro norm. repeat split.
  intro t. exists (tmap (fun _ => 0) t). repeat split.
  - apply same_shape_tmap.
  - apply tall_tmap_const.
Qed.

Lemma needs_scaling_representations (u : Misc) (rs : list Representation) :
  needs_scaling
    (ComposeAudioTransform (map (fun r => Single (repr_object u r)) rs)) = false.
Proof.
  rewrite needs_scaling_compose.
  induction rs as [|r rs IH]; [reflexivity | exact IH].
Qed.

(** C9: each of [Real], [Imaginary], [Magnitude], [Phase] and [IF], in
    any configuration and with any normalization, reports
    [needs_scaling = False], [invertible = True] and [scriptable = True];
    a composition whose children are all such representations reports
    [needs_scaling = False]. *)
Theorem representations_flags :
  forall (u : Misc) (r : Representation),
    needs_scaling (Single (repr_object u r)) = false /\
    invertible (Single (repr_object u r)) = true /\
    scriptable (Single (repr_object u r)) = true /\
    forall rs : list Representation,
      needs_scaling
        (ComposeAudioTransform (map (fun r => Single (repr_object u r)) rs))
      = false.
Proof.
  intros u r. repeat split. apply needs_scaling_representations.
Qed.

(* ================================================================== *)
(** * Theorems: instantaneous frequency *)

(** C10: [IF.invert] does not depend on [weighted] nor on the window
    stored by [forward]: it is the inverse normalization, the
    multiplication of the slice and the integration; while [get_if] with
    [weighted] set multiplies the frequencies by the window. *)
Theorem IF_invert_ignores_weighted :
  forall (u : Misc) (norm : Normalizer) (m : MethodValue)
         (w1 w2 : bool) (b1 b2 : WindowBuffer) (y : Value),
    IF_invert u (mkIF norm m w1 b1) y = IF_invert u (mkIF norm m w2 b2) y /\
    (forall data : Value,
        get_if u (mkIF norm m true b1) data
        = (fb <- get_if u (mkIF norm m false b1) data ;;
           wb <- get_weighted_window (mkIF norm m true b1) (fst fb) ;;
           r <- window_times (fst wb) (fst fb) ;;
           Ok (r, snd wb))).
Proof.
  intros u norm m w1 w2 b1 b2 y. split; [reflexivity|].
  intro data. unfold get_if. cbn [weighted method weighted_window].
  destruct (angle data) as [a|e]; cbn [bind]; [|reflexivity].
  destruct (unwrap u a) as [p|e]; cbn [bind]; [|reflexivity].
  match goal with
  | |- (x <- ?c ;; _) = _ => destruct c as [f|e]; reflexivity
  end.
Qed.

(** C7, at an [IF] whose [method] is none of the three: [get_if] and
    [forward] raise, but [invert] returns the inversely normalized
    input. *)
Theorem IF_unknown_method :
  forall (u : Misc) (norm : Normalizer) (w : bool) (b : WindowBuffer) (x : Value),
    (exists e, get_if u (mkIF norm OtherMethod w b) x = Raise e) /\
    (exists e, IF_forward u (mkIF norm OtherMethod w b) x = Raise e) /\
    (get_if u (mkIF norm OtherMethod w b) x
     = (a <- angle x ;; _ <- unwrap u a ;; Raise AttributeError)) /\
    IF_invert u (mkIF norm OtherMethod w b) x = norm_invert norm x /\
    IF_invert u (mkIF Dummy_norm OtherMethod w b) x = Ok x.
Proof.
  intros u norm w b x.
  assert (Hg : get_if u (mkIF norm OtherMethod w b) x
               = (a <- angle x ;; _ <- unwrap u a ;; Raise AttributeError)).
  { unfold get_if. cbn [method method_is].
    destruct (angle x) as [a|e]; cbn [bind]; [|reflexivity].
    destruct (unwrap u a) as [p|e]; reflexivity. }
  assert (He : exists e, get_if u (mkIF norm OtherMethod w b) x = Raise e).
  { rewrite Hg. destruct (angle x) as [a|e]; cbn [bind]; [|now exists e].
    destruct (unwrap u a) as [p|e]; cbn [bind]; eauto. }
  repeat split; try assumption.
  - destruct He as [e He]. exists e. unfold IF_forward. now rewrite He.
  - unfold IF_invert. cbn [method method_is if_norm].
    destruct (norm_invert norm x); reflexivity.
Qed.

Lemma upd_interior_ext {A : Type} (f g : A -> A) (l : list A) :
  (forall a, f a = g a) -> upd_interior f l = upd_interior g l.
Proof.
  intro H. destruct l as [|h r]; simpl; [reflexivity|]. f_equal.
  induction r as [|x [|y r] IH]; try reflexivity.
  change (upd_init f (x :: y :: r)) with (f x :: upd_init f (y :: r)).
  change (upd_init g (x :: y :: r)) with (g x :: upd_init g (y :: r)).
  now rewrite H, IH.
Qed.

Lemma PI_neq0' : PI <> 0.
Proof. apply Rgt_not_eq, PI_RGT_0. Qed.

(** FORWARD: the multiplication by [pi] undoes the division by [pi]. *)
Lemma forward_scale_undone (d : Value) :
  (s <- idiv_slice (@upd_init) PI d ;; imul_slice (@upd_init) PI s)
  = (_ <- idiv_slice (@upd_init) PI d ;; Ok d).
Proof.
  pose proof PI_neq0' as Hpi.
  destruct d as [[a|rows]|[a|rows]|]; try reflexivity; simpl;
    rewrite upd_init_compose, upd_init_id; try reflexivity;
    intro r; rewrite tmap_tmap; apply tmap_id.
  - intro v. field. exact Hpi.
  - intros [v w]. simpl. f_equal; field; exact Hpi.
Qed.

(** BACKWARD: the multiplication by [-pi] undoes the division by [-pi]. *)
Lemma backward_scale_undone (d : Value) :
  (s <- idiv_slice (@upd_tail) (- PI) d ;; imul_slice (@upd_tail) (- PI) s)
  = (_ <- idiv_slice (@upd_tail) (- PI) d ;; Ok d).
Proof.
  pose proof PI_neq0' as Hpi.
  destruct d as [[a|rows]|[a|rows]|]; try reflexivity; simpl;
    rewrite upd_tail_compose, upd_tail_id; try reflexivity;
    intro r; rewrite tmap_tmap; apply tmap_id.
  - intro v. field. exact Hpi.
  - intros [v w]. simpl. f_equal; field; exact Hpi.
Qed.

(** CENTRAL: the multiplication by [pi] after the division by [2 pi]
    leaves the interior rows divided by 2. *)
Lemma central_scale_halved (d : Value) :
  (s <- idiv_slice (@upd_interior) (2 * PI) d ;; imul_slice (@upd_interior) PI s)
  = idiv_slice (@upd_interior) 2 d.
Proof.
  pose proof PI_neq0' as Hpi.
  destruct d as [[a|rows]|[a|rows]|]; try reflexivity; simpl;
    rewrite upd_interior_compose; do 3 f_equal;
    apply upd_interior_ext; intro r; rewrite tmap_tmap; apply tmap_ext.
  - intro v. field. exact Hpi.
  - intros [v w]. simpl. f_equal; field; exact Hpi.
Qed.

(** C2, at [method = CENTRAL]: [invert] after [forward] integrates the
    central differences with their interior rows divided by 2, the
    division by [2 pi] being followed by a multiplication by [pi]; with
    FORWARD and BACKWARD the factor is undone.  A difference of 1 in an
    interior row comes back as 1/2. *)
Theorem IF_central_scale_not_undone :
  forall (u : Misc) (x : Value),
    (yb <- IF_forward u (IF_none CENTRAL) x ;;
     IF_invert u (IF_none CENTRAL) (fst yb))
    = (a <- angle x ;;
       p <- unwrap u a ;;
       d <- fdiff_central u p ;;
       h <- idiv_slice (@upd_interior) 2 d ;;
       fint_central u h) /\
    (yb <- IF_forward u (IF_none FORWARD) x ;;
     IF_invert u (IF_none FORWARD) (fst yb))
    = (a <- angle x ;;
       p <- unwrap u a ;;
       d <- fdiff_forward u p ;;
       _ <- idiv_slice (@upd_init) PI d ;;
       fint_forward u d) /\
    (yb <- IF_forward u (IF_none BACKWARD) x ;;
     IF_invert u (IF_none BACKWARD) (fst yb))
    = (a <- angle x ;;
       p <- unwrap u a ;;
       d <- fdiff_backward u p ;;
       _ <- idiv_slice (@upd_tail) (- PI) d ;;
       fint_backward u d) /\
    idiv_slice (@upd_interior) 2 (VReal (Rows [Scalar 0; Scalar 1; Scalar 0]))
    = Ok (VReal (Rows [Scalar 0; Scalar (1 / 2); Scalar 0])) /\
    1 / 2 <> 1.
Proof.
  intros u x. repeat split; try (simpl; lra).
  - unfold IF_forward, IF_invert, get_if, IF_none.
    cbn [method method_is weighted if_norm weighted_window].
    destruct (angle x) as [a|e]; cbn [bind]; [|reflexivity].
    destruct (unwrap u a) as [p|e]; cbn [bind]; [|reflexivity].
    destruct (fdiff_central u p) as [d|e]; cbn [bind]; [|reflexivity].
    rewrite <- central_scale_halved.
    destruct (idiv_slice (@upd_interior) (2 * PI) d) as [s|e]; cbn; reflexivity.
  - unfold IF_forward, IF_invert, get_if, IF_none.
    cbn [method method_is weighted if_norm weighted_window].
    destruct (angle x) as [a|e]; cbn [bind]; [|reflexivity].
    destruct (unwrap u a) as [p|e]; cbn [bind]; [|reflexivity].
    destruct (fdiff_forward u p) as [d|e]; cbn [bind]; [|reflexivity].
    pose proof (forward_scale_undone d) as H.
    destruct (idiv_slice (@upd_init) PI d) as [s|e]; cbn in *; [|reflexivity].
    destruct (imul_slice (@upd_init) PI s) as [s'|e']; cbn in *;
      [now injection H as -> | discriminate].
  - unfold IF_forward, IF_invert, get_if, IF_none.
    cbn [method method_is weighted if_norm weighted_window].
    destruct (angle x) as [a|e]; cbn [bind]; [|reflexivity].
    destruct (unwrap u a) as [p|e]; cbn [bind]; [|reflexivity].
    destruct (fdiff_backward u p) as [d|e]; cbn [bind]; [|reflexivity].
    pose proof (backward_scale_undone d) as H.
    destruct (idiv_slice (@upd_tail) (- PI) d) as [s|e]; cbn in *; [|reflexivity].
    destruct (imul_slice (@upd_tail) (- PI) s) as [s'|e']; cbn in *;
      [|discriminate].
    injection H as ->. destruct (fint_backward u d); reflexivity.
Qed.

(* ================================================================== *)
(** * Theorems: Cartesian *)

(** The pair of rows that [torch.stack(.., dim=-2)] makes of a row of [a]
    and a row of [b], for each of [T] times. *)
Lemma stack_full2 {A : Type} (a b : A) (T F : nat) :
  (0 < T)%nat -> (0 < F)%nat ->
  torch_stack (full2 T F a) (full2 T F b) (-2)
  = Ok (Rows (repeat (Rows [Rows (repeat (Scalar a) F);
                            Rows (repeat (Scalar b) F)]) T)).
Proof.
  intros HT HF. unfold torch_stack. rewrite ndim_full2 by assumption.
  change (resolve_dim (-2) 3) with (@Ok nat 1%nat). cbn [bind].
  unfold full2. cbn [stack_at].
  rewrite zipM_repeat
    with (d := Rows [Rows (repeat (Scalar a) F); Rows (repeat (Scalar b) F)]).
  - reflexivity.
  - now rewrite same_shape_row.
Qed.

Lemma select_stacked {A : Type} (a b : A) (T F : nat) :
  (0 < T)%nat -> (0 < F)%nat ->
  let s := Rows (repeat (Rows [Rows (repeat (Scalar a) F);
                               Rows (repeat (Scalar b) F)]) T) in
  index_select_squeeze s (-2) 0 = Ok (full2 T F a) /\
  index_select_squeeze s (-2) 1 = Ok (full2 T F b).
Proof.
  intros HT HF s. unfold index_select_squeeze.
  assert (Hn : ndim s = 3%nat).
  { unfold s. destruct T as [|T]; [lia|]. destruct F as [|F]; [lia|].
    reflexivity. }
  rewrite Hn. change (resolve_dim (-2) 3) with (@Ok nat 1%nat). cbn [bind].
  unfold s, full2. cbn [select_at].
  split.
  - now rewrite mapM_repeat with (b := Rows (repeat (Scalar a) F)).
  - now rewrite mapM_repeat with (b := Rows (repeat (Scalar b) F)).
Qed.

Lemma polar_entry (m p : R) :
  Cmul (RtoC m) (Cexp (Cmul (RtoC p) Ci)) = (m * cos p, m * sin p).
Proof.
  unfold Cmul, Cexp, RtoC, Ci. cbn [fst snd].
  replace (p * 0 - 0 * 1) with 0 by ring.
  replace (p * 1 + 0 * 0) with p by ring.
  rewrite exp_0. f_equal; ring.
Qed.

Lemma polar_product_full2 (m p : R) (T F : nat) :
  polar_product (VReal (full2 T F m)) (VReal (full2 T F p))
  = Ok (VComplex (full2 T F (m * cos p, m * sin p))).
Proof.
  unfold polar_product. cbn [bind].
  rewrite tmap_full2, tmap2_full2, polar_entry. reflexivity.
Qed.

(** No angle has its cosine and its sine both within 1e-4 of 1. *)
Lemma cos_sin_not_both_one (t : R) :
  ~ (Rabs (cos t - 1) <= default_tolerance /\ Rabs (sin t - 1) <= default_tolerance).
Proof.
  unfold default_tolerance. intros [Hc Hs].
  pose proof (sin2_cos2 t) as H. unfold Rsqr in H.
  pose proof (Rle_abs (- (cos t - 1))) as Hc'. rewrite Rabs_Ropp in Hc'.
  pose proof (Rle_abs (- (sin t - 1))) as Hs'. rewrite Rabs_Ropp in Hs'.
  nra.
Qed.

(** C1, at the uniform tensor [1+1j] of [T] by [F] entries, for
    normalizations that map the tensor of ones to a uniform tensor and
    back: [Cartesian.forward] stacks the normalized real and imaginary
    parts, and [Cartesian.invert] of that, computing
    [real * exp(i * imag)], returns the uniform tensor
    [cos 1 + i sin 1], which is not [1+1j] within the tolerance. *)
Theorem Cartesian_roundtrip_one_plus_j :
  forall (u : Misc) (real_norm imag_norm : Normalizer) (T F : nat) (a b : R),
    (0 < T)%nat -> (0 < F)%nat ->
    norm_call real_norm (VReal (full2 T F 1)) = Ok (VReal (full2 T F a)) ->
    norm_call imag_norm (VReal (full2 T F 1)) = Ok (VReal (full2 T F b)) ->
    norm_invert real_norm (VReal (full2 T F a)) = Ok (VReal (full2 T F 1)) ->
    norm_invert imag_norm (VReal (full2 T F b)) = Ok (VReal (full2 T F 1)) ->
    let self := Cartesian real_norm imag_norm (Some (-2)%Z) in
    let stacked :=
      VReal (Rows (repeat (Rows [Rows (repeat (Scalar a) F);
                                 Rows (repeat (Scalar b) F)]) T)) in
    Spectral_forward u self (VComplex (full2 T F (1, 1))) = Ok (stacked, self) /\
    Spectral_invert u self stacked = Ok (VComplex (full2 T F (cos 1, sin 1))) /\
    ~ approx default_tolerance
        (VComplex (full2 T F (cos 1, sin 1))) (VComplex (full2 T F (1, 1))).
Proof.
  intros u nr ni T F a b HT HF Hfr Hfi Hir Hii self stacked.
  repeat split.
  - unfold Spectral_forward, self, Cartesian.
    cbn [magnitude phase stack repr_forward].
    unfold Real_forward, Imaginary_forward.
    cbn [real is_complex imag bind]. rewrite !tmap_full2.
    cbn [Cre Cim fst snd]. rewrite Hfr, Hfi. cbn [bind fst snd stack_values].
    rewrite stack_full2 by assumption. reflexivity.
  - unfold Spectral_invert, self, stacked, Cartesian.
    cbn [magnitude phase stack select_value].
    destruct (select_stacked a b HT HF) as [H0 H1]. cbn zeta in H0, H1.
    rewrite H0, H1. cbn [bind fst snd repr_invert].
    unfold Imaginary_invert, Representation_invert. rewrite Hir, Hii.
    cbn [bind]. rewrite polar_product_full2. now rewrite !Rmult_1_l.
  - unfold approx. cbn [complex_entries]. intro H.
    apply tclose_full2 in H; [|assumption..]. cbn [fst snd] in H.
    exact (cos_sin_not_both_one 1 H).
Qed.

Lemma Cartesian_roundtrip_one_plus_j_witness :
  Spectral_invert absent_misc (Cartesian Dummy_norm Dummy_norm (Some (-2)%Z))
    (VReal (Rows [Rows [Rows [Scalar 1]; Rows [Scalar 1]]]))
  = Ok (VComplex (full2 1 1 (cos 1, sin 1))).
Proof.
  exact (proj1 (proj2 (@Cartesian_roundtrip_one_plus_j
                         absent_misc Dummy_norm Dummy_norm 1 1 1 1
                         Nat.lt_0_1 Nat.lt_0_1
                         eq_refl eq_refl eq_refl eq_refl))).
Defined.

(* ================================================================== *)
(** * Further properties: base.py *)

Lemma forward_with_time_cons t r x time :
  forward_with_time (ComposeAudioTransform (t :: r)) x time
  = (xt <- forward_with_time t x time ;;
     forward_with_time (ComposeAudioTransform r) (fst xt) (snd xt)).
Proof. reflexivity. Qed.

(** X1: [forward_with_time] returns the output of [forward] and the
    [time] it was given, through any nesting of compositions. *)
Theorem forward_with_time_keeps_time :
  forall (t : AudioTransform) (x time : Value),
    forward_with_time t x time = (y <- forward t x ;; Ok (y, time)).
Proof.
  induction t as [o|ts IH] using AudioTransform_nested_ind; intros x time.
  - reflexivity.
  - revert x. induction IH as [|c r Hc _ IHr]; intro x; [reflexivity|].
    rewrite forward_with_time_cons, forward_cons, Hc, bind_assoc.
    destruct (forward c x) as [y|e]; cbn [bind fst snd]; [apply IHr | reflexivity].
Qed.

Lemma invertible_app l1 l2 :
  invertible (ComposeAudioTransform (l1 ++ l2))
  = invertible (ComposeAudioTransform l1) && invertible (ComposeAudioTransform l2).
Proof. rewrite !invertible_compose. apply forallb_app. Qed.

Lemma scriptable_app l1 l2 :
  scriptable (ComposeAudioTransform (l1 ++ l2))
  = scriptable (ComposeAudioTransform l1) && scriptable (ComposeAudioTransform l2).
Proof. rewrite !scriptable_compose. apply forallb_app. Qed.

Lemma needs_scaling_app l1 l2 :
  needs_scaling (ComposeAudioTransform (l1 ++ l2))
  = needs_scaling (ComposeAudioTransform l1)
    || needs_scaling (ComposeAudioTransform l2).
Proof. rewrite !needs_scaling_compose. apply existsb_app. Qed.

Lemma leaves_cons c r :
  leaves (ComposeAudioTransform (c :: r))
  = leaves c ++ leaves (ComposeAudioTransform r).
Proof. reflexivity. Qed.

Lemma forward_leaves t x :
  forward (ComposeAudioTransform (leaves t)) x = forward t x.
Proof.
  revert x. induction t as [o|ts IH] using AudioTransform_nested_ind; intro x.
  - apply (forward_children (Single o)).
  - revert x. induction IH as [|c r Hc _ IHr]; intro x; [reflexivity|].
    rewrite leaves_cons, forward_app, Hc, forward_cons.
    destruct (forward c x) as [y|e]; cbn [bind]; [apply IHr | reflexivity].
Qed.

Lemma invert_leaves t y k :
  invert (ComposeAudioTransform (leaves t)) y (Some k) = invert t y (Some k).
Proof.
  revert y. induction t as [o|ts IH] using AudioTransform_nested_ind; intro y.
  - apply (invert_children (Single o)).
  - induction IH as [|c r Hc _ IHr]; [reflexivity|].
    rewrite leaves_cons, invert_app, IHr, invert_cons.
    destruct (invert (ComposeAudioTransform r) y (Some k)) as [v|e];
      cbn [bind]; [apply Hc | reflexivity].
Qed.

Lemma flags_leaves t :
  invertible (ComposeAudioTransform (leaves t)) = invertible t /\
  scriptable (ComposeAudioTransform (leaves t)) = scriptable t /\
  needs_scaling (ComposeAudioTransform (leaves t)) = needs_scaling t.
Proof.
  induction t as [o|ts IH] using AudioTransform_nested_ind.
  - cbn. destruct (obj_invertible o), (obj_scriptable o), (obj_needs_scaling o);
      auto.
  - induction IH as [|c r [Hi [Hs Hn]] _ [IHi [IHs IHn]]]; [auto|].
    rewrite leaves_cons, invertible_app, scriptable_app, needs_scaling_app.
    rewrite Hi, Hs, Hn, IHi, IHs, IHn. cbn.
    destruct (invertible c), (scriptable c), (needs_scaling c); auto.
Qed.

(** X2: nesting is immaterial.  A composition that holds compositions
    has the output, the inverse (called with the keywords) and the three
    flags of the flat composition of its leaves. *)
Theorem nested_composition_is_flat :
  forall (t : AudioTransform) (x : Value) (k : Kwargs),
    forward t x = forward (ComposeAudioTransform (leaves t)) x /\
    invert t x (Some k) = invert (ComposeAudioTransform (leaves t)) x (Some k) /\
    invertible t = invertible (ComposeAudioTransform (leaves t)) /\
    scriptable t = scriptable (ComposeAudioTransform (leaves t)) /\
    needs_scaling t = needs_scaling (ComposeAudioTransform (leaves t)).
Proof.
  intros t x k. destruct (flags_leaves t) as [Hi [Hs Hn]].
  repeat split; auto using forward_leaves, invert_leaves.
Qed.

(** X3: a composition of any length is undone by its [invert] on [x]
    when each child, on the data that reaches it, is undone by its own
    [invert] called with the keywords. *)
Theorem composition_roundtrip :
  forall (k : Kwargs) (ts : list AudioTransform) (x : Value),
    roundtrip_chain k ts x ->
    exists y,
      forward (ComposeAudioTransform ts) x = Ok y /\
      invert (ComposeAudioTransform ts) y (Some k) = Ok x.
Proof.
  intros k ts. induction ts as [|t r IH]; intros x H.
  - exists x. split; reflexivity.
  - destruct H as [y [Hf [Hi Hr]]]. destruct (IH y Hr) as [z [Hfz Hiz]].
    exists z. rewrite forward_cons, invert_cons, Hf, Hiz. cbn [bind].
    split; [exact Hfz | exact Hi].
Qed.

Lemma composition_roundtrip_witness :
  exists y,
    forward (ComposeAudioTransform [Real_none; Real_none; Real_none]) real_one
    = Ok y /\
    invert (ComposeAudioTransform [Real_none; Real_none; Real_none]) y
           (Some default_kwargs) = Ok real_one.
Proof.
  apply (@composition_roundtrip default_kwargs
           [Real_none; Real_none; Real_none] real_one).
  simpl. repeat (exists real_one; repeat split).
Defined.

Lemma mapM_length {A B : Type} (f : A -> result B) (l : list A) (l' : list B) :
  mapM f l = Ok l' -> List.length l' = List.length l.
Proof.
  revert l'. induction l as [|a r IH]; intros l' H; simpl in H.
  - now injection H as <-.
  - destruct (f a) as [b|e]; cbn [bind] in H; [|discriminate].
    destruct (mapM f r) as [bs|e]; cbn [bind] in H; [|discriminate].
    injection H as <-. simpl. now rewrite (IH bs).
Qed.

(** X4: without [time], the outputs of [apply_transform_to_list] are as
    many as the inputs, and [apply_invert_transform_to_list] maps them
    back to the inputs when [invert] undoes [forward] on each input. *)
Theorem list_helpers_roundtrip :
  forall (t : AudioTransform) (data outs : list Value),
    apply_transform_to_list t data None = Ok (Outs outs) ->
    (forall x y, In x data -> forward t x = Ok y -> invert t y None = Ok x) ->
    List.length outs = List.length data /\
    apply_invert_transform_to_list t outs None = Ok (Outs data).
Proof.
  intros t data outs H Hinv. unfold apply_transform_to_list in H.
  destruct (mapM (forward t) data) as [l|e] eqn:Hm; cbn [bind] in H;
    [|discriminate].
  injection H as <-. split; [exact (mapM_length _ _ Hm)|].
  unfold apply_invert_transform_to_list.
  assert (Hb : mapM (fun x => invert t x None) l = Ok data).
  { revert l Hm. induction data as [|d r IH]; intros l Hm; simpl in Hm.
    - now injection Hm as <-.
    - destruct (forward t d) as [y|e] eqn:Hy; cbn [bind] in Hm; [|discriminate].
      destruct (mapM (forward t) r) as [ys|e] eqn:Hys; cbn [bind] in Hm;
        [|discriminate].
      injection Hm as <-. simpl.
      rewrite (Hinv d y (or_introl eq_refl) Hy). cbn [bind].
      rewrite (IH (fun x y Hx => Hinv x y (or_intror Hx)) ys eq_refl).
      reflexivity. }
  now rewrite Hb.
Qed.

Lemma list_helpers_roundtrip_witness :
  apply_invert_transform_to_list Real_none [real_one; real_one] None
  = Ok (Outs [real_one; real_one]).
Proof.
  refine (proj2 (@list_helpers_roundtrip Real_none [real_one; real_one]
                   [real_one; real_one] eq_refl _)).
  intros x y [<-|[<-|[]]] H; simpl in H; injection H as <-; reflexivity.
Defined.

Lemma resolve_dim_nat (i n : nat) :
  (i < n)%nat -> resolve_dim (Z.of_nat i) n = Ok i.
Proof.
  intro H. unfold resolve_dim.
  replace ((0 <=? Z.of_nat i)%Z) with true by (symmetry; apply Z.leb_le; lia).
  replace ((Z.of_nat i <? Z.of_nat n)%Z) with true
    by (symmetry; apply Z.ltb_lt; lia).
  cbn. now rewrite Nat2Z.id.
Qed.

Lemma resolve_dim_last (n : nat) :
  resolve_dim (-1) (S n) = Ok n.
Proof.
  unfold resolve_dim. cbn [Z.leb Z.compare andb].
  replace ((-1 <? 0)%Z) with true by reflexivity.
  replace ((- Z.of_nat (S n) <=? -1)%Z) with true
    by (symmetry; apply Z.leb_le; lia).
  cbn [andb]. f_equal. lia.
Qed.

(** X6: indexing a sum.  Whenever [A + B] returns: for [i] below the
    number of children of [A], [(A + B)[i]] is the [i]-th child of [A];
    from there on it is the child of [B] at [i] less that number;
    [(A + B)[-1]] is [B] when [B] is no composition.  Indexing an object
    that is no composition raises [TypeError]. *)
Theorem getitem_of_sum :
  forall (A B ab : AudioTransform) (i : nat),
    add A (PTransform B) = Ok ab ->
    ((i < List.length (children A))%nat ->
     getitem_transform ab (Z.of_nat i)
     = match nth_error (children A) i with
       | Some c => Ok c
       | None => Raise IndexError
       end) /\
    ((i < List.length (children B))%nat ->
     getitem_transform ab (Z.of_nat (List.length (children A) + i))
     = match nth_error (children B) i with
       | Some c => Ok c
       | None => Raise IndexError
       end) /\
    (forall o : TransformObject,
        B = Single o -> getitem_transform ab (-1) = Ok (Single o)) /\
    (forall o : TransformObject,
        getitem_transform (Single o) (Z.of_nat i) = Raise TypeError).
Proof.
  intros A B ab i Hadd. apply add_ok_children in Hadd. subst ab.
  cbn [getitem_transform]. repeat split.
  - intro H. rewrite resolve_dim_nat by (rewrite length_app; lia).
    cbn [bind]. now rewrite nth_error_app1.
  - intro H. rewrite resolve_dim_nat by (rewrite length_app; lia).
    cbn [bind]. rewrite nth_error_app2 by lia.
    now replace (List.length (children A) + i - List.length (children A))%nat
      with i by lia.
  - intros o ->. cbn [children]. rewrite length_app. cbn [List.length].
    replace (List.length (children A) + 1)%nat
      with (S (List.length (children A))) by lia.
    rewrite resolve_dim_last. cbn [bind].
    rewrite nth_error_app2 by lia. now rewrite Nat.sub_diag.
Qed.

Lemma getitem_of_sum_witness :
  getitem_transform (ComposeAudioTransform [Real_none; not_invertible_plain])
                    (Z.of_nat 1)
  = Ok not_invertible_plain.
Proof.
  exact (proj1 (proj2 (@getitem_of_sum Real_none not_invertible_plain
                         (ComposeAudioTransform [Real_none; not_invertible_plain])
                         0 eq_refl)) Nat.lt_0_1).
Defined.

(** X7: a composition that holds an object with the [invert] of
    [AudioTransform] (such as [Dummy]) has no inverse: whatever the other
    children, [invert] raises, and it raises [TypeError] when the
    children after that object succeed. *)
Theorem composition_with_plain_child_not_inverted :
  forall (before after : list AudioTransform) (i s n : bool)
         (y : Value) (kw : option Kwargs),
    invert (ComposeAudioTransform
              (before ++ Single (plain_transform i s n) :: after)) y kw
    = (_ <- invert (ComposeAudioTransform after) y kw ;; Raise TypeError) /\
    exists e,
      invert (ComposeAudioTransform
                (before ++ Single (plain_transform i s n) :: after)) y kw
      = Raise e.
Proof.
  intros before after i s n y kw.
  assert (H : invert (ComposeAudioTransform
                        (before ++ Single (plain_transform i s n) :: after)) y kw
              = (_ <- invert (ComposeAudioTransform after) y kw ;; Raise TypeError)).
  { rewrite invert_app, invert_cons, bind_assoc.
    destruct (invert (ComposeAudioTransform after) y kw) as [v|e];
      reflexivity. }
  split; [exact H|]. rewrite H.
  destruct (invert (ComposeAudioTransform after) y kw) as [v|e]; cbn [bind];
    eauto.
Qed.

(* ================================================================== *)
(** * Further properties: stacking and splitting *)

Lemma mapM_after_zipM {A : Type} (f : A -> A -> result A) (g : A -> result A)
  (first : bool) (la lb rs : list A) :
  (forall a b s, f a b = Ok s -> g s = Ok (if first then a else b)) ->
  zipM f la lb = Ok rs ->
  mapM g rs = Ok (if first then la else lb).
Proof.
  intro Hfg. revert lb rs.
  induction la as [|a ra IH]; intros [|b rb] rs H; simpl in H;
    try discriminate.
  - injection H as <-. now destruct first.
  - destruct (f a b) as [c|e] eqn:Hc; cbn [bind] in H; [|discriminate].
    destruct (zipM f ra rb) as [cs|e] eqn:Hcs; cbn [bind] in H; [|discriminate].
    injection H as <-. simpl. rewrite (Hfg a b c Hc). cbn [bind].
    rewrite (IH rb cs Hcs). now destruct first.
Qed.

Lemma select_after_stack {A : Type} (d : nat) :
  forall a b s : tensor A,
    stack_at d a b = Ok s ->
    select_at d 0 s = Ok a /\ select_at d 1 s = Ok b.
Proof.
  induction d as [|d IH]; intros a b s H; simpl in H.
  - destruct (same_shape a b); [|discriminate]. injection H as <-.
    split; reflexivity.
  - destruct a as [x|la]; [discriminate|]. destruct b as [x|lb]; [discriminate|].
    destruct (zipM (stack_at d) la lb) as [rs|e] eqn:Hz; cbn [bind] in H;
      [|discriminate].
    injection H as <-. cbn [select_at]. split.
    + rewrite (@mapM_after_zipM _ (stack_at d) (select_at d 0) true la lb rs);
        [reflexivity | | exact Hz].
      intros a b s Hs. exact (proj1 (IH a b s Hs)).
    + rewrite (@mapM_after_zipM _ (stack_at d) (select_at d 1) false la lb rs);
        [reflexivity | | exact Hz].
      intros a b s Hs. exact (proj2 (IH a b s Hs)).
Qed.

Lemma nonempty_head {A : Type} (h : tensor A) (r : list (tensor A)) :
  nonempty (Rows (h :: r)) = true -> nonempty h = true.
Proof. simpl. intro H. now apply andb_prop in H. Qed.

Lemma ndim_after_stack {A : Type} (d : nat) :
  forall a b s : tensor A,
    nonempty a = true -> stack_at d a b = Ok s -> ndim s = S (ndim a).
Proof.
  induction d as [|d IH]; intros a b s Hne H; simpl in H.
  - destruct (same_shape a b); [|discriminate]. now injection H as <-.
  - destruct a as [x|[|ha la]]; try discriminate.
    destruct b as [x|[|hb lb]]; try discriminate.
    simpl in H.
    destruct (stack_at d ha hb) as [hs|e] eqn:Hs; cbn [bind] in H;
      [|discriminate].
    destruct (zipM (stack_at d) la lb) as [rs|e]; cbn [bind] in H;
      [|discriminate].
    injection H as <-. cbn [ndim]. f_equal.
    exact (IH ha hb hs (nonempty_head _ _ Hne) Hs).
Qed.

Lemma split_after_torch_stack {A : Type} (a b s : tensor A) (dim : Z) :
  nonempty a = true ->
  torch_stack a b dim = Ok s ->
  index_select_squeeze s dim 0 = Ok a /\ index_select_squeeze s dim 1 = Ok b.
Proof.
  intros Hne H. unfold torch_stack in H. unfold index_select_squeeze.
  destruct (resolve_dim dim (S (ndim a))) as [d|e] eqn:Hd; cbn [bind] in H;
    [|discriminate].
  rewrite (ndim_after_stack d a b Hne H), Hd. cbn [bind].
  exact (select_after_stack d a b H).
Qed.

(** X8: whatever the [stack] axis, the two [index_select(..).squeeze(..)]
    of [invert] return the two tensors that [torch.stack] of [forward]
    put together, for tensors without a dimension of size 0. *)
Theorem split_undoes_stack :
  forall (m p : tensor R) (dim : Z) (s : Value),
    nonempty m = true ->
    stack_values (VReal m) (VReal p) dim = Ok s ->
    select_value s dim 0 = Ok (VReal m) /\
    select_value s dim 1 = Ok (VReal p).
Proof.
  intros m p dim s Hne H. cbn [stack_values] in H.
  destruct (torch_stack m p dim) as [t|e] eqn:Ht; cbn [bind] in H;
    [|discriminate].
  injection H as <-. cbn [select_value].
  destruct (split_after_torch_stack m p dim Hne Ht) as [H0 H1].
  now rewrite H0, H1.
Qed.

Lemma split_undoes_stack_witness :
  select_value (VReal (Rows [Rows [Rows [Scalar 1]; Rows [Scalar 2]]])) (-2) 1
  = Ok (VReal (full2 1 1 2)).
Proof.
  exact (proj2 (@split_undoes_stack (full2 1 1 1) (full2 1 1 2) (-2)%Z
                  (VReal (Rows [Rows [Rows [Scalar 1]; Rows [Scalar 2]]]))
                  eq_refl eq_refl)).
Defined.

(* ================================================================== *)
(** * Further properties: round trips of the representations *)

Lemma Dummy_elementwise : elementwise Dummy_norm (fun v => v) (fun v => v).
Proof.
  intro t. cbn. rewrite tmap_id by reflexivity. split; reflexivity.
Qed.

(** X12: with a normalization that acts entry by entry and is undone by
    its inverse, [invert] after [forward] returns the part that the
    representation extracts, not the input: [x.real] for [Real],
    [x.angle()] for [Phase], [x.imag] for [Imaginary] on a complex tensor;
    on a real tensor [Imaginary] returns the inverse normalization of 0 in
    every entry. *)
Theorem representation_roundtrips :
  forall (norm : Normalizer) (f g : R -> R) (x : Value),
    elementwise norm f g ->
    (forall v, g (f v) = v) ->
    (y <- Real_forward norm x ;; Representation_invert norm y) = real x /\
    (y <- Phase_forward norm x ;; Representation_invert norm y) = angle x /\
    (forall t : tensor C,
        (y <- Imaginary_forward norm (VComplex t) ;; Imaginary_invert norm y)
        = Ok (VReal (tmap Cim t))) /\
    (forall t : tensor R,
        (y <- Imaginary_forward norm (VReal t) ;; Imaginary_invert norm y)
        = Ok (VReal (tmap (fun _ => g 0) t))).
Proof.
  intros norm f g x Hn Hgf.
  assert (Hrt : forall t : tensor R,
             (y <- norm_call norm (VReal t) ;; norm_invert norm y)
             = Ok (VReal t)).
  { intro t. rewrite (proj1 (Hn _)). cbn [bind]. rewrite (proj2 (Hn _)).
    do 2 f_equal. rewrite tmap_tmap. now apply tmap_id. }
  unfold Real_forward, Phase_forward, Imaginary_forward, Imaginary_invert,
    Representation_invert.
  repeat split.
  - destruct x as [t|t|a b]; cbn [real bind]; [apply Hrt | apply Hrt | reflexivity].
  - destruct x as [t|t|a b]; cbn [angle bind]; [apply Hrt | apply Hrt | reflexivity].
  - intro t. cbn [is_complex imag bind]. apply Hrt.
  - intro t. cbn [is_complex zeros_like bind]. rewrite (proj2 (Hn _)).
    do 2 f_equal. apply tmap_tmap.
Qed.

Lemma representation_roundtrips_witness :
  (y <- Real_forward Dummy_norm one_plus_j ;; Representation_invert Dummy_norm y)
  = real one_plus_j.
Proof.
  exact (proj1 (@representation_roundtrips Dummy_norm (fun v => v) (fun v => v)
                  one_plus_j Dummy_elementwise (fun v => eq_refl))).
Defined.

(* ================================================================== *)
(** * Further properties: the weighting window of IF *)

Lemma Rsum_app (l1 l2 : list R) : Rsum (l1 ++ l2) = Rsum l1 + Rsum l2.
Proof.
  unfold Rsum. induction l1 as [|a r IH]; simpl; [ring | rewrite IH; ring].
Qed.

Lemma Rsum_map_scale {A : Type} (K : R) (g : A -> R) (l : list A) :
  Rsum (map (fun n => K * g n) l) = K * Rsum (map g l).
Proof.
  unfold Rsum. induction l as [|a r IH]; simpl; [ring | rewrite IH; ring].
Qed.

Lemma parabola_sum (c : R) (M : nat) :
  c <> 0 ->
  Rsum (map (fun n => 1 - ((INR n - (c - 1)) / c) ^ 2) (seq 0 M))
  = INR M * (INR M + 1) / c
    - INR M * (INR M + 1) * (2 * INR M + 1) / (6 * c ^ 2).
Proof.
  intro Hc. induction M as [|M IH].
  - simpl. unfold Rsum. simpl. field. exact Hc.
  - rewrite seq_S, map_app, Rsum_app, IH. cbn [map Nat.add]. unfold Rsum at 1.
    cbn [fold_right]. rewrite S_INR. field. exact Hc.
Qed.

Lemma one_and_a_half : 1.5 = 3 / 2.
Proof. lra. Qed.

Lemma compute_window_ok (N : nat) :
  (2 <= N)%nat -> compute_window N = Ok (map (window_entry N) (seq 0 N)).
Proof.
  intro H. unfold compute_window.
  replace (Nat.eqb (N ^ 2) 1) with false; [reflexivity|].
  symmetry. apply Nat.eqb_neq. simpl. nia.
Qed.

Lemma INR_ge_2 (N : nat) : (2 <= N)%nat -> 2 <= INR N.
Proof. intro H. apply le_INR in H. simpl in H. lra. Qed.

(** X13: for [N >= 2] the window has [N] entries and they sum to 1. *)
Theorem window_sums_to_one :
  forall N : nat,
    (2 <= N)%nat ->
    exists w : list R,
      compute_window N = Ok w /\ List.length w = N /\ Rsum w = 1.
Proof.
  intros N H. exists (map (window_entry N) (seq 0 N)).
  pose proof (INR_ge_2 H) as HT.
  repeat split.
  - now apply compute_window_ok.
  - now rewrite length_map, length_seq.
  - unfold window_entry.
    rewrite (Rsum_map_scale (1.5 * INR N / (INR N ^ 2 - 1))
               (fun n => 1 - ((INR n - (INR N / 2 - 1)) / (INR N / 2)) ^ 2)).
    rewrite parabola_sum by lra. rewrite one_and_a_half.
    field. split; [lra | nra].
Qed.

Lemma window_sums_to_one_witness :
  exists w : list R, compute_window 4 = Ok w /\ List.length w = 4%nat /\ Rsum w = 1.
Proof.
  apply (@window_sums_to_one 4). lia.
Defined.

(** X14: for [N >= 2] no entry of the window is negative and the last
    one, at [n = N - 1], is 0. *)
Theorem window_nonnegative_last_zero :
  forall N n : nat,
    (2 <= N)%nat -> (n < N)%nat ->
    0 <= window_entry N n /\ window_entry N (N - 1) = 0.
Proof.
  intros N n H Hn. pose proof (INR_ge_2 H) as HT.
  assert (Hx : 0 <= INR n <= INR N - 1).
  { split; [apply pos_INR|].
    assert (Hle : (S n <= N)%nat) by lia. apply le_INR in Hle.
    rewrite S_INR in Hle. lra. }
  unfold window_entry. rewrite one_and_a_half. split.
  - replace (1 - ((INR n - (INR N / 2 - 1)) / (INR N / 2)) ^ 2)
      with ((2 * INR N - 2 * INR n - 2) * (2 * INR n + 2) / (INR N * INR N))
      by (field; lra).
    apply Rmult_le_pos.
    + apply Rmult_le_pos; [lra|].
      apply Rlt_le, Rinv_0_lt_compat. nra.
    + apply Rmult_le_pos; [nra|].
      apply Rlt_le, Rinv_0_lt_compat. nra.
  - rewrite minus_INR by lia. simpl INR. field. split; [lra | nra].
Qed.

Lemma window_nonnegative_last_zero_witness :
  0 <= window_entry 4 1 /\ window_entry 4 (4 - 1) = 0.
Proof.
  apply (@window_nonnegative_last_zero 4 1); lia.
Defined.

(** With a one-dimensional window stored, a weighted [get_if] raises. *)
Lemma get_if_window_raises (u : Misc) (f : IFTransform) (w : list R) (x : Value) :
  weighted f = true ->
  weighted_window f = Window w ->
  exists e, get_if u f x = Raise e.
Proof.
  intros Hw Hb. unfold get_if. rewrite Hw.
  destruct (angle x) as [a|e]; cbn [bind]; [|eauto].
  destruct (unwrap u a) as [p|e]; cbn [bind]; [|eauto].
  match goal with
  | |- exists _, (inst_f <- ?c ;; _) = _ => destruct c as [i|e]; cbn [bind]
  end; [|eauto].
  unfold get_weighted_window. rewrite Hb.
  destruct (size_m2 i) as [N|e]; cbn [bind buffer_size_m2]; eauto.
Qed.

(** X15: once a forward call of an [IF] with [weighted=True] has
    replaced [weighted_window] by the window it computed, the attribute
    holds a one-dimensional tensor, whose [size(-2)] raises: every later
    call on the instance raises. *)
Theorem weighted_IF_second_call_raises :
  forall (u : Misc) (f f' : IFTransform) (x y : Value),
    weighted f = true ->
    repr_forward u (IF_ f) x = Ok (y, IF_ f') ->
    weighted_window f' <> Zeros_0_0 ->
    forall x' : Value, exists e, repr_forward u (IF_ f') x' = Raise e.
Proof.
  intros u f f' x y Hw H Hb x'. cbn [repr_forward] in H. unfold IF_forward in H.
  destruct (get_if u f x) as [[inst b]|e] eqn:Hg; cbn [bind fst snd] in H;
    [|discriminate].
  destruct (norm_call (if_norm f) inst) as [v|e]; cbn [bind fst snd] in H;
    [|discriminate].
  injection H as _ <-. cbn [weighted_window] in Hb.
  destruct b as [|w]; [now elim Hb|].
  cbn [repr_forward]. unfold IF_forward.
  destruct (@get_if_window_raises u (mkIF (if_norm f) (method f) (weighted f)
                                       (Window w)) w x' Hw eq_refl) as [e He].
  rewrite He. exists e. reflexivity.
Qed.

Lemma weighted_IF_second_call_raises_witness :
  exists (y : Value) (f' : IFTransform),
    repr_forward passthrough_misc
      (IF_ (mkIF Dummy_norm (Method FORWARD) true Zeros_0_0))
      (VReal (full2 2 1 0)) = Ok (y, IF_ f') /\
    exists e, repr_forward passthrough_misc (IF_ f') (VReal (full2 2 1 0))
              = Raise e.
Proof.
  eexists. eexists. split; [reflexivity|].
  eapply (@weighted_IF_second_call_raises passthrough_misc
            (mkIF Dummy_norm (Method FORWARD) true Zeros_0_0) _
            (VReal (full2 2 1 0))); [reflexivity | reflexivity | discriminate].
Defined.

(** X16: on frequencies with a single row along dimension -2 the
    weighted [get_if] of a new [IF] raises [ZeroDivisionError], from the
    division by [N ** 2 - 1]. *)
Theorem weighted_IF_single_row :
  forall (u : Misc) (norm : Normalizer) (m : MethodValue)
         (data inst : Value) (b : WindowBuffer),
    get_if u (mkIF norm m false Zeros_0_0) data = Ok (inst, b) ->
    size_m2 inst = Ok 1%nat ->
    get_if u (mkIF norm m true Zeros_0_0) data = Raise ZeroDivisionError.
Proof.
  intros u norm m data inst b H HN. unfold get_if in *.
  cbn [weighted method weighted_window] in *.
  destruct (angle data) as [a|e]; cbn [bind] in *; [|discriminate].
  destruct (unwrap u a) as [p|e]; cbn [bind] in *; [|discriminate].
  match type of H with
  | (inst_f <- ?c ;; _) = _ => destruct c as [i|e]; cbn [bind] in *
  end; [|discriminate].
  injection H as -> _.
  unfold get_weighted_window. cbn [weighted_window buffer_size_m2].
  rewrite HN. reflexivity.
Qed.

Lemma weighted_IF_single_row_witness :
  get_if passthrough_misc (mkIF Dummy_norm (Method FORWARD) true Zeros_0_0)
         (VReal (full2 1 1 0))
  = Raise ZeroDivisionError.
Proof.
  eapply (@weighted_IF_single_row passthrough_misc Dummy_norm (Method FORWARD)
            (VReal (full2 1 1 0))); reflexivity.
Defined.
